(** * Task tracking, admission control and rate limiting of the video
    generation dashboard

    A shallow embedding of the server side of the repository:
    - [RateLimit]         : the fixed-window limiter imported as
                            [@/lib/rate-limit] (src/unnamed/part_005);
    - [Generate]          : the route of [/api/generate]
                            (src/unnamed/part_003): the task store, POST
                            admission, GET status query, [processTask] and
                            the cleanup timers;
    - [GenerateVideo]     : src/app/api/generate-video/route.ts, the upload
                            endpoint with its [videoTasks] store;
    - [GenerateVideoWait] : the variant of the same POST handler that waits
                            for the video (src/unnamed/part_002).

    JavaScript numbers that hold integers (timestamps, counters, HTTP status
    codes) are [Z]; strings are [string], one character per UTF-16 code
    unit, so that [String.length] is the [.length] of the source. *)

From stdpp Require Import gmap strings list fin_maps pretty.
From Stdlib Require Import ZArith Lia.

Open Scope Z_scope.

(** ** The rate limiter *)

Module RateLimit.

Record RateLimitEntry := mkEntry {
  count : Z;
  resetTime : Z
}.

(** The class: a [Map] from keys to entries and two read-only fields. *)
Record t := mk {
  store : gmap string RateLimitEntry;
  limit : Z;
  windowMs : Z
}.

(** [constructor(limit = 10, windowMs = 60000)] *)
Definition new (limit windowMs : Z) : t :=
  {| store := ∅; limit := limit; windowMs := windowMs |}.

Definition with_store (rl : t) (s : gmap string RateLimitEntry) : t :=
  {| store := s; limit := limit rl; windowMs := windowMs rl |}.

Record CheckResult := mkResult {
  success : bool;
  remaining : Z
}.

(** [check(key)], with the value of [Date.now()] as an argument.  The
    entry object found in the map is mutated in place by [entry.count++];
    in the map this is the replacement of the binding of [key]. *)
Definition check (rl : t) (key : string) (now : Z) : t * CheckResult :=
  let entry := store rl !! key in
  (* Clean up expired entries *)
  let store1 :=
    match entry with
    | Some e => if now >? resetTime e then delete key (store rl) else store rl
    | None => store rl
    end in
  let expired :=
    match entry with
    | Some e => now >? resetTime e
    | None => true
    end in
  if expired then
    (* First request or expired entry *)
    (with_store rl (<[key := {| count := 1; resetTime := now + windowMs rl |}]> store1),
     {| success := true; remaining := limit rl - 1 |})
  else
    match entry with
    | Some e =>
        if count e >=? limit rl then
          (with_store rl store1, {| success := false; remaining := 0 |})
        else
          (* Increment counter *)
          let e' := {| count := count e + 1; resetTime := resetTime e |} in
          (with_store rl (<[key := e']> store1),
           {| success := true; remaining := limit rl - count e' |})
    | None => (with_store rl store1, {| success := false; remaining := 0 |})
    end.

(** [cleanup()]: drops every entry whose window has elapsed. *)
Definition cleanup (rl : t) (now : Z) : t :=
  with_store rl (filter (λ kv, ¬ (now > resetTime kv.2)) (store rl)).

(** A sequence of calls [check(key)] at given clock readings; the results
    of the calls made with key [k], in order. *)
Fixpoint checks_of (k : string) (rl : t) (calls : list (string * Z))
  : list CheckResult :=
  match calls with
  | [] => []
  | (k', now) :: calls' =>
      let '(rl', r) := check rl k' now in
      if decide (k' = k) then r :: checks_of k rl' calls'
      else checks_of k rl' calls'
  end.

(** The two public methods, as operations on the limiter. *)
Inductive op :=
| OpCheck (key : string) (now : Z)
| OpCleanup (now : Z).

Definition apply_op (rl : t) (o : op) : t :=
  match o with
  | OpCheck key now => (check rl key now).1
  | OpCleanup now => cleanup rl now
  end.

Definition run_ops (rl : t) (ops : list op) : t := fold_left apply_op ops rl.

End RateLimit.

(** [export const rateLimit = new RateLimit()] *)
Definition rateLimit : RateLimit.t := RateLimit.new 10 60000.

(** ** JavaScript values and property lookup *)

(** A value found in a parsed JSON body, as far as the handlers look at it.
    Arrays and objects are always truthy; what [v.length > MAX_PROMPT_LENGTH]
    gives for one of them is carried as a flag.  A JSON number is
    represented by an integer: only whether it is zero is ever tested. *)
Inductive JSValue :=
| JUndefined
| JNull
| JBool (b : bool)
| JNumber (n : Z)
| JString (s : string)
| JObject (length_exceeds : bool).

(** [!v] is [negb (truthy v)]. *)
Definition truthy (v : JSValue) : bool :=
  match v with
  | JUndefined | JNull => false
  | JBool b => b
  | JNumber n => negb (Z.eqb n 0)
  | JString s => negb (String.eqb s "")
  | JObject _ => true
  end.

(** [v.length > max]; [undefined > max] is false. *)
Definition length_gt (v : JSValue) (max : Z) : bool :=
  match v with
  | JString s => Z.of_nat (String.length s) >? max
  | JObject b => b
  | _ => false
  end.

(** Truthiness of an optional string ([undefined], [null] or a string). *)
Definition truthy_str (o : option string) : bool :=
  match o with
  | Some s => negb (String.eqb s "")
  | None => false
  end.

(** A thrown value, as [catch] inspects it:
    [error instanceof Error ? error.message : ...]. *)
Inductive Thrown :=
| ThrownError (message : string)
| ThrownOther.

(** The property names every object literal inherits from
    [Object.prototype]; each of them reads as a truthy value. *)
Definition Object_prototype_keys : list string :=
  [ "constructor"; "__proto__"; "hasOwnProperty"; "isPrototypeOf";
    "propertyIsEnumerable"; "toLocaleString"; "toString"; "valueOf";
    "__defineGetter__"; "__defineSetter__"; "__lookupGetter__";
    "__lookupSetter__" ].

(** Reading [obj[key]] on an object literal used as a dictionary. *)
Inductive Property (A : Type) :=
| Own (a : A)
| Inherited
| Undefined.
Arguments Own {A} a.
Arguments Inherited {A}.
Arguments Undefined {A}.

Definition js_get {A} (obj : gmap string A) (key : string) : Property A :=
  match obj !! key with
  | Some a => Own a
  | None => if bool_decide (key ∈ Object_prototype_keys) then Inherited else Undefined
  end.

(** The character U+0022. *)
Definition dquote : string :=
  String (Ascii.Ascii false true false false false true false false) EmptyString.

(** Whether [l] is a subsequence of [k]. *)
Fixpoint subseq {A} `{EqDecision A} (l k : list A) : bool :=
  match l, k with
  | [], _ => true
  | _ :: _, [] => false
  | x :: l', y :: k' => if decide (x = y) then subseq l' k' else subseq l k'
  end.

(** What [NextResponse.json(body, { status })] sends. *)
Record Response (B : Type) := mkResponse {
  http_status : Z;
  json : B
}.
Arguments mkResponse {B} http_status json.
Arguments http_status {B} r.
Arguments json {B} r.

(** ** The task route: POST and GET /api/generate, processTask *)

Module Generate.

Inductive TaskType := image | video.

Inductive Status := pending | processing | completed | failed.

Record Task := mkTask {
  id : string;
  type : TaskType;
  status : Status;
  progress : Z;
  result : option string;
  error : option string;
  createdAt : Z
}.

Definition MAX_CONCURRENT_TASKS : Z := 5.
Definition MAX_PROMPT_LENGTH : Z := 1000.

(** A callback registered with [setTimeout]: the closure holds [taskId]. *)
Record Timer := mkTimer {
  timer_taskId : string;
  timer_delay : Z
}.

(** A call of [processTask] suspended at [await fetch(...)]: the closure
    holds the task object it read from the store, and its arguments. *)
Record Suspended := mkSuspended {
  s_task : nat;
  s_taskId : string;
  s_type : TaskType
}.

(** The state of the module.  Task objects live in [heap], in allocation
    order, and are referred to by their index; [tasks] is the object
    literal that maps a task id to a task object.  [status_log] is a
    history variable: every assignment to the [status] field of a task
    object, oldest first. *)
Record State := mkState {
  limiter : RateLimit.t;
  heap : list Task;
  tasks : gmap string nat;
  timers : list Timer;
  suspended : list Suspended;
  status_log : list (nat * Status)
}.

Definition init : State :=
  {| limiter := rateLimit; heap := []; tasks := ∅; timers := [];
     suspended := []; status_log := [] |}.

Definition set_limiter (rl : RateLimit.t) (st : State) : State :=
  mkState rl (heap st) (tasks st) (timers st) (suspended st) (status_log st).
Definition set_heap (h : list Task) (st : State) : State :=
  mkState (limiter st) h (tasks st) (timers st) (suspended st) (status_log st).
Definition set_tasks (m : gmap string nat) (st : State) : State :=
  mkState (limiter st) (heap st) m (timers st) (suspended st) (status_log st).
Definition set_timers (l : list Timer) (st : State) : State :=
  mkState (limiter st) (heap st) (tasks st) l (suspended st) (status_log st).
Definition set_suspended (l : list Suspended) (st : State) : State :=
  mkState (limiter st) (heap st) (tasks st) (timers st) l (status_log st).
Definition set_status_log (l : list (nat * Status)) (st : State) : State :=
  mkState (limiter st) (heap st) (tasks st) (timers st) (suspended st) l.

Definition with_status (s : Status) (t : Task) : Task :=
  mkTask (id t) (type t) s (progress t) (result t) (error t) (createdAt t).
Definition with_progress (p : Z) (t : Task) : Task :=
  mkTask (id t) (type t) (status t) p (result t) (error t) (createdAt t).
Definition with_result (u : string) (t : Task) : Task :=
  mkTask (id t) (type t) (status t) (progress t) (Some u) (error t) (createdAt t).
Definition with_error (m : string) (t : Task) : Task :=
  mkTask (id t) (type t) (status t) (progress t) (result t) (Some m) (createdAt t).

(** [task.status = s] on the object [r]. *)
Definition assign_status (r : nat) (s : Status) (st : State) : State :=
  set_status_log (status_log st ++ [(r, s)])
    (set_heap (alter (with_status s) r (heap st)) st).

(** [task.f = v] for the other fields. *)
Definition assign (r : nat) (f : Task → Task) (st : State) : State :=
  set_heap (alter f r (heap st)) st.

(** [setTimeout(() => { if (tasks[taskId]) delete tasks[taskId] }, delay)] *)
Definition setTimeout (taskId : string) (delay : Z) (st : State) : State :=
  set_timers (timers st ++ [mkTimer taskId delay]) st.

(** The object literal of POST, with [status: 'pending']: a new object. *)
Definition allocate (t : Task) (st : State) : nat * State :=
  let r := length (heap st) in
  (r, set_status_log (status_log st ++ [(r, status t)])
        (set_heap (heap st ++ [t]) st)).

Definition type_name (ty : TaskType) : string :=
  match ty with image => "image" | video => "video" end.

Definition message_of (e : Thrown) : string :=
  match e with
  | ThrownError m => m
  | ThrownOther => "Unknown error"
  end.

(** How the request issued by [processTask] ends.  [FetchThrows] stands
    for every exception raised in the [try] block once the request is
    sent: [fetch], [response.text()] or [response.json()] rejecting, or a
    body that is [null].  [FetchOk] carries [data.output?.image] and
    [data.output?.video], [None] when absent. *)
Inductive FetchOutcome :=
| FetchThrows (e : Thrown)
| FetchNotOk (statusText errorData : string)
| FetchOk (output_image output_video : option string).

(** The [catch] block of [processTask]. *)
Definition processTask_catch (r : nat) (taskId : string) (e : Thrown)
    (st : State) : State :=
  let st := assign_status r failed st in
  let st := assign r (with_error (message_of e)) st in
  (* Cleanup failed task after 15 minutes *)
  setTimeout taskId 900000 st.

(** [processTask] from its call up to [await fetch(...)]: an [async]
    function runs synchronously until its first [await]. *)
Definition processTask (taskId : string) (ty : TaskType)
    (apiKey : option string) (st : State) : State :=
  match tasks st !! taskId with
  | None => st
  | Some r =>
      let st := assign_status r processing st in
      if negb (truthy_str apiKey) then
        processTask_catch r taskId
          (ThrownError "RUNWAY_API_KEY is not configured") st
      else
        set_suspended (suspended st ++ [mkSuspended r taskId ty]) st
  end.

(** [processTask] from the settlement of the request to its end.  The
    [await]s in between touch neither the store nor the task. *)
Definition processTask_resume (s : Suspended) (o : FetchOutcome)
    (st : State) : State :=
  let r := s_task s in
  let taskId := s_taskId s in
  match o with
  | FetchThrows e => processTask_catch r taskId e st
  | FetchNotOk statusText errorData =>
      processTask_catch r taskId
        (ThrownError ("Runway API error: " +:+ statusText +:+ ". " +:+ errorData)) st
  | FetchOk output_image output_video =>
      let url := match s_type s with
                 | image => output_image
                 | video => output_video
                 end in
      if truthy_str url then
        let st := assign_status r completed st in
        let st := assign r (with_progress 100) st in
        let st := assign r (with_result (default "" url)) st in
        (* Cleanup task after 1 hour *)
        setTimeout taskId 3600000 st
      else
        processTask_catch r taskId
          (ThrownError ("No " +:+ type_name (s_type s)
                          +:+ " URL returned from Runway API")) st
  end.

(** The body of a timer callback. *)
Definition fire (tm : Timer) (st : State) : State :=
  match tasks st !! timer_taskId tm with
  | Some _ => set_tasks (delete (timer_taskId tm) (tasks st)) st
  | None => st
  end.

(** [Object.values(tasks)], up to order. *)
Definition Object_values (st : State) : list Task :=
  omap (λ kr, heap st !! kr.2) (map_to_list (tasks st)).

Definition is_active (t : Task) : bool :=
  match status t with
  | pending | processing => true
  | completed | failed => false
  end.

Definition activeTasks (st : State) : list Task :=
  filter (λ t, is_active t = true) (Object_values st).

(** The request of POST: the [x-forwarded-for] header and the body.
    [BodyUnreadable] is a body on which [request.json()] rejects, or the
    JSON value [null], which cannot be destructured.  Any other body is
    given by what [body.type] and [body.prompt] read. *)
Inductive Body :=
| BodyUnreadable
| BodyFields (type prompt : JSValue).

Record PostRequest := mkPostRequest {
  forwarded_for : option string;
  body : Body
}.

(** What POST reads from its environment: [Date.now()] in the rate
    limiter, [new Date()], [crypto.randomUUID()] (a 36-character RFC 4122
    string) and [process.env.RUNWAY_API_KEY]. *)
Record PostEnv := mkPostEnv {
  now : Z;
  date : Z;
  randomUUID : string;
  RUNWAY_API_KEY : option string
}.

Inductive Json :=
| JsonError (error : string)
| JsonTaskId (taskId : string)
| JsonTask (t : Task)
| JsonEmptyObject.

Definition task_type_of (v : JSValue) : option TaskType :=
  match v with
  | JString s =>
      if String.eqb s "image" then Some image
      else if String.eqb s "video" then Some video
      else None
  | _ => None
  end.

(** POST /api/generate.  The handler suspends twice, at
    [await rateLimit.check(ip)] and at [await request.json()]; before the
    second it has touched the rate limiter only, and from there on, where it
    reads and writes the store, it runs to its end.  It is one step. *)
Definition POST (st : State) (req : PostRequest) (env : PostEnv)
    : State * Response Json :=
  (* Rate limiting *)
  let ip := if truthy_str (forwarded_for req)
            then default "unknown" (forwarded_for req) else "unknown" in
  let '(rl, chk) := RateLimit.check (limiter st) ip (now env) in
  let st := set_limiter rl st in
  if negb (RateLimit.success chk) then
    (st, mkResponse 429 (JsonError "Too many requests. Please try again later."))
  else
    match body req with
    | BodyUnreadable => (st, mkResponse 500 (JsonError "Failed to create task"))
    | BodyFields type prompt =>
        (* Input validation *)
        if negb (truthy type) || negb (truthy prompt) then
          (st, mkResponse 400 (JsonError "Type and prompt are required"))
        else
          match task_type_of type with
          | None =>
              (st, mkResponse 400
                     (JsonError ("Type must be either " +:+ dquote +:+ "image"
                                   +:+ dquote +:+ " or " +:+ dquote +:+ "video"
                                   +:+ dquote)))
          | Some ty =>
              if length_gt prompt MAX_PROMPT_LENGTH then
                (st, mkResponse 400
                       (JsonError ("Prompt must be less than "
                                     +:+ pretty MAX_PROMPT_LENGTH +:+ " characters")))
              (* Check concurrent tasks limit *)
              else if Z.of_nat (length (activeTasks st)) >=? MAX_CONCURRENT_TASKS then
                (st, mkResponse 429
                       (JsonError "Maximum number of concurrent tasks reached. Please try again later."))
              else
                let taskId := randomUUID env in
                (* Create new task *)
                let task := {| id := taskId; type := ty; status := pending;
                               progress := 0; result := None; error := None;
                               createdAt := date env |} in
                let '(r, st) := allocate task st in
                (* Add to queue *)
                let st := set_tasks (<[taskId := r]> (tasks st)) st in
                (* Start processing in background *)
                let st := processTask taskId ty (RUNWAY_API_KEY env) st in
                (st, mkResponse 200 (JsonTaskId taskId))
          end
    end.

(** GET /api/generate?taskId=xxx, given [searchParams.get('taskId')].
    An inherited property is truthy: the handler passes it to
    [NextResponse.json], which serialises [Object.prototype] as an empty
    object and throws on a function. *)
Definition GET (st : State) (taskId : option string) : Response Json :=
  if negb (truthy_str taskId) then
    mkResponse 400 (JsonError "Task ID is required")
  else
    let key := default "" taskId in
    match js_get (tasks st) key with
    | Undefined => mkResponse 404 (JsonError "Task not found")
    | Own r =>
        match heap st !! r with
        | Some t => mkResponse 200 (JsonTask t)
        | None => mkResponse 404 (JsonError "Task not found")
        end
    | Inherited =>
        if String.eqb key "__proto__" then mkResponse 200 JsonEmptyObject
        else mkResponse 500 (JsonError "Failed to fetch task status")
    end.

(** What can happen to the module: a request, the settlement of the
    upstream request of the [i]-th suspended [processTask], or the
    [i]-th pending timer going off.  The model does not say when a timer
    goes off, only that it was set, and with which delay. *)
Inductive Event :=
| EvPOST (req : PostRequest) (env : PostEnv)
| EvGET (taskId : option string)
| EvSettled (i : nat) (o : FetchOutcome)
| EvTimeout (i : nat).

Definition step (st : State) (ev : Event) : State :=
  match ev with
  | EvPOST req env => (POST st req env).1
  | EvGET _ => st
  | EvSettled i o =>
      match suspended st !! i with
      | Some s => processTask_resume s o (set_suspended (delete i (suspended st)) st)
      | None => st
      end
  | EvTimeout i =>
      match timers st !! i with
      | Some tm => fire tm (set_timers (delete i (timers st)) st)
      | None => st
      end
  end.

Definition run (st : State) (evs : list Event) : State := fold_left step evs st.

(** The statuses assigned to the object [r], oldest first. *)
Definition statuses_of (r : nat) (log : list (nat * Status)) : list Status :=
  snd <$> filter (λ rs, rs.1 = r) log.

Definition terminal (s : Status) : bool :=
  match s with
  | completed | failed => true
  | pending | processing => false
  end.

#[export] Instance Status_eq_dec : EqDecision Status.
Proof. solve_decision. Defined.

End Generate.

(** ** The upload route: POST and GET /api/generate-video *)

Module GenerateVideo.

(** What [formData.get(name)] returns: [null], a string or a [File], of
    which only the MIME type matters here. *)
Inductive FormEntry :=
| FormAbsent
| FormText (s : string)
| FormFile (type : string).

Record Form := mkForm {
  image : FormEntry;
  prompt : FormEntry
}.

Definition entry_truthy (e : FormEntry) : bool :=
  match e with
  | FormAbsent => false
  | FormText s => negb (String.eqb s "")
  | FormFile _ => true
  end.

(** A [Request]: its body can be read once.  [form] is what the first
    [formData()] gives, the parsed form or the error it rejects with;
    [reread] is the [TypeError] of a further read. *)
Record Request := mkRequest {
  bodyUsed : bool;
  form : Form + Thrown;
  reread : Thrown
}.

Definition formData (rq : Request) : Request * (Form + Thrown) :=
  if bodyUsed rq then (rq, inr (reread rq))
  else (mkRequest true (form rq) (reread rq), form rq).

(** An entry of [videoTasks]. *)
Record VideoTask := mkVideoTask {
  id : string;
  status : string;
  progress : Z;
  createdAt : Z;
  videoUrl : option string;
  error : option string
}.

(** Requests sent to the generation service: the creation of a task
    through the SDK, a retrieval of the created task by the SDK while it
    waits for the output, and the two direct requests of the handlers. *)
Inductive UpstreamCall :=
| SdkImageToVideoCreate
| SdkTasksRetrieve
| FetchImageToVideo
| FetchTask (taskId : string).

Record State := mkState {
  videoTasks : gmap string VideoTask;
  upstream_calls : list UpstreamCall
}.

Definition init : State := {| videoTasks := ∅; upstream_calls := [] |}.

Definition call (c : UpstreamCall) (st : State) : State :=
  mkState (videoTasks st) (upstream_calls st ++ [c]).
Definition set_videoTasks (m : gmap string VideoTask) (st : State) : State :=
  mkState m (upstream_calls st).

(** How [runway.imageToVideo.create(...)] ends. *)
Inductive SdkOutcome :=
| SdkThrows (e : Thrown)
| SdkTask (id : string).

(** The body of a successful answer of the service, with the fields the
    handlers read; [None] is an absent field.  [status] is a string, as the
    handlers take it to be when they call [toLowerCase] on it. *)
Record TaskData := mkTaskData {
  data_id : string;
  data_status : string;
  data_output : option string;
  data_error : option string
}.

(** How a [fetch] to the service ends. *)
Inductive FetchOutcome :=
| FetchThrows (e : Thrown)
| FetchNotOk (status : Z) (errorText : string)
| FetchOk (data : TaskData).

(** What a handler reads from its environment. *)
Record Env := mkEnv {
  RUNWAY_API_KEY : option string;
  date : Z;
  sdk_create : SdkOutcome;
  fetch : FetchOutcome
}.

Inductive Json :=
| JsonError (error : string)
| JsonStarted (taskId : string) (status : string) (fallback : bool)
| JsonStatus (taskId : string) (status : string) (progress : Z)
             (videoUrl : option string) (error : option string).

Definition Outcome : Type := State * Request * (Response Json + Thrown).

(** The [try] block of POST. *)
Definition POST_try (st : State) (rq : Request) (env : Env) : Outcome :=
  let '(rq, fd) := formData rq in
  match fd with
  | inr e => (st, rq, inr e)
  | inl formData =>
      let imageFile := image formData in
      let promptText := prompt formData in
      if negb (entry_truthy imageFile) || negb (entry_truthy promptText) then
        (st, rq, inl (mkResponse 400 (JsonError "Image and prompt are required.")))
      else
        match imageFile with
        | FormFile ty =>
            if negb (String.prefix "image/" ty) then
              (st, rq, inl (mkResponse 400
                              (JsonError "Invalid file type. Please upload an image.")))
            else if negb (truthy_str (RUNWAY_API_KEY env)) then
              (st, rq, inr (ThrownError "RUNWAY_API_KEY is not configured."))
            else
              let st := call SdkImageToVideoCreate st in
              match sdk_create env with
              | SdkThrows e => (st, rq, inr e)
              | SdkTask task_id =>
                  (* Store task info for polling *)
                  let st := set_videoTasks
                              (<[task_id := mkVideoTask task_id "pending" 0 (date env)
                                              None None]> (videoTasks st)) st in
                  (st, rq, inl (mkResponse 200 (JsonStarted task_id "pending" false)))
              end
        | _ =>
            (* [imageFile.type] is [undefined] on a string *)
            (st, rq, inr (ThrownError
               "Cannot read properties of undefined (reading 'startsWith')"))
        end
  end.

(** The [try] block inside the [catch] block of POST. *)
Definition POST_fallback (st : State) (rq : Request) (env : Env) : Outcome :=
  let '(rq, fd) := formData rq in
  match fd with
  | inr e => (st, rq, inr e)
  | inl formData =>
      match image formData with
      | FormFile _ =>
          let st := call FetchImageToVideo st in
          match fetch env with
          | FetchThrows e => (st, rq, inr e)
          | FetchNotOk status errorText =>
              (st, rq, inr (ThrownError
                 ("API Error: " +:+ pretty status +:+ " - " +:+ errorText)))
          | FetchOk data =>
              let status := if truthy_str (Some (data_status data))
                            then data_status data else "pending" in
              let st := set_videoTasks
                          (<[data_id data := mkVideoTask (data_id data) status 0
                                               (date env) None None]> (videoTasks st)) st in
              (st, rq, inl (mkResponse 200
                              (JsonStarted (data_id data) (data_status data) true)))
          end
      | FormText _ =>
          (st, rq, inr (ThrownError "imageFile.arrayBuffer is not a function"))
      | FormAbsent =>
          (st, rq, inr (ThrownError
             "Cannot read properties of null (reading 'arrayBuffer')"))
      end
  end.

Definition instance_message (e : Thrown) : string :=
  match e with
  | ThrownError m => m
  | ThrownOther => "Unknown"
  end.

(** POST /api/generate-video *)
Definition POST (st : State) (rq : Request) (env : Env)
    : State * Response Json :=
  match POST_try st rq env with
  | (st, _, inl resp) => (st, resp)
  | (st, rq, inr error) =>
      match POST_fallback st rq env with
      | (st, _, inl resp) => (st, resp)
      | (st, _, inr fallbackError) =>
          (st, mkResponse 500
                 (JsonError ("Failed to generate video with Gen-4 Turbo. SDK Error: "
                               +:+ instance_message error +:+ ". API Error: "
                               +:+ instance_message fallbackError)))
      end
  end.

(** [s.toLowerCase()] on the letters A to Z. *)
Definition lower (c : Ascii.ascii) : Ascii.ascii :=
  let n := Ascii.nat_of_ascii c in
  if (65 <=? n)%nat && (n <=? 90)%nat then Ascii.ascii_of_nat (n + 32) else c.

Fixpoint toLowerCase (s : string) : string :=
  match s with
  | EmptyString => EmptyString
  | String c s' => String (lower c) (toLowerCase s')
  end.

Definition progress_of (status : string) : Z :=
  if String.eqb status "SUCCEEDED" then 100
  else if String.eqb status "FAILED" then 0 else 50.

(** The update of the local store in GET.  An id that names an inherited
    property also passes the test [if (videoTasks[taskId])]; the
    assignments then land on a built-in object and leave the entries of
    the store as they are. *)
Definition update_local (taskId : string) (data : TaskData)
    (m : gmap string VideoTask) : gmap string VideoTask :=
  match m !! taskId with
  | Some t =>
      let t := mkVideoTask (id t) (data_status data)
                 (progress_of (data_status data)) (createdAt t)
                 (videoUrl t) (error t) in
      let t := if String.eqb (data_status data) "SUCCEEDED"
                  && truthy_str (data_output data)
               then mkVideoTask (id t) (status t) (progress t) (createdAt t)
                      (data_output data) (error t)
               else t in
      let t := if String.eqb (data_status data) "FAILED"
                  && truthy_str (data_error data)
               then mkVideoTask (id t) (status t) (progress t) (createdAt t)
                      (videoUrl t) (data_error data)
               else t in
      <[taskId := t]> m
  | None => m
  end.

(** GET /api/generate-video?taskId=xxx *)
Definition GET (st : State) (taskId : option string) (env : Env)
    : State * Response Json :=
  if negb (truthy_str taskId) then
    (st, mkResponse 400 (JsonError "Task ID is required"))
  else if negb (truthy_str (RUNWAY_API_KEY env)) then
    (st, mkResponse 500 (JsonError "RUNWAY_API_KEY is not configured"))
  else
    let taskId := default "" taskId in
    (* Use direct API call to check status *)
    let st := call (FetchTask taskId) st in
    match fetch env with
    | FetchThrows _ | FetchNotOk _ _ =>
        (st, mkResponse 500 (JsonError "Failed to check task status"))
    | FetchOk data =>
        (* Update our local task store *)
        let st := set_videoTasks (update_local taskId data (videoTasks st)) st in
        let status := data_status data in
        (st, mkResponse 200
               (JsonStatus taskId (toLowerCase status) (progress_of status)
                  (if String.eqb status "SUCCEEDED" then data_output data else None)
                  (if String.eqb status "FAILED" then data_error data else None)))
    end.

End GenerateVideo.

(** ** The variant of the upload handler that waits for the video *)

Module GenerateVideoWait.

Import GenerateVideo.

(** How [create(...).waitForTaskOutput()] ends: an exception, or the
    finished task with [task.output[0]] when there is one.  The SDK first
    sends the creation, then asks the service for the task again and again
    until the task has ended or the wait gives up; [retrievals] is the
    number of times it asked (none when the creation itself failed). *)
Inductive WaitOutcome :=
| WaitThrows (retrievals : nat) (e : Thrown)
| WaitTask (retrievals : nat) (id : string) (output0 : option string).

(** The requests the SDK sends for one [create(...).waitForTaskOutput()]. *)
Definition sdk_requests (wait : WaitOutcome) : list UpstreamCall :=
  SdkImageToVideoCreate ::
  replicate (match wait with
             | WaitThrows n _ | WaitTask n _ _ => n
             end) SdkTasksRetrieve.

Inductive Json :=
| JsonError (error : string)
| JsonVideo (taskId : string) (videoUrl : string)
| JsonFallback (taskId : string).

Definition Outcome : Type :=
  list UpstreamCall * Request * (Response Json + Thrown).

Definition POST_try (calls : list UpstreamCall) (rq : Request)
    (apiKey : option string) (wait : WaitOutcome) : Outcome :=
  let '(rq, fd) := formData rq in
  match fd with
  | inr e => (calls, rq, inr e)
  | inl formData =>
      let imageFile := image formData in
      let promptText := prompt formData in
      if negb (entry_truthy imageFile) || negb (entry_truthy promptText) then
        (calls, rq, inl (mkResponse 400 (JsonError "Image and prompt are required.")))
      else
        match imageFile with
        | FormFile ty =>
            if negb (String.prefix "image/" ty) then
              (calls, rq, inl (mkResponse 400
                                 (JsonError "Invalid file type. Please upload an image.")))
            else if negb (truthy_str apiKey) then
              (calls, rq, inr (ThrownError "RUNWAY_API_KEY is not configured."))
            else
              let calls := (calls ++ sdk_requests wait) in
              match wait with
              | WaitThrows _ e => (calls, rq, inr e)
              | WaitTask _ task_id output0 =>
                  if truthy_str output0 then
                    (calls, rq, inl (mkResponse 200
                                       (JsonVideo task_id (default "" output0))))
                  else
                    (calls, rq, inr (ThrownError "No video URL found in completed task"))
              end
        | _ =>
            (calls, rq, inr (ThrownError
               "Cannot read properties of undefined (reading 'startsWith')"))
        end
  end.

Definition POST_fallback (calls : list UpstreamCall) (rq : Request)
    (fetch : FetchOutcome) : Outcome :=
  let '(rq, fd) := formData rq in
  match fd with
  | inr e => (calls, rq, inr e)
  | inl formData =>
      match image formData with
      | FormFile _ =>
          let calls := (calls ++ [FetchImageToVideo]) in
          match fetch with
          | FetchThrows e => (calls, rq, inr e)
          | FetchNotOk status errorText =>
              (calls, rq, inr (ThrownError
                 ("API Error: " +:+ pretty status +:+ " - " +:+ errorText)))
          | FetchOk data =>
              (calls, rq, inl (mkResponse 200 (JsonFallback (data_id data))))
          end
      | FormText _ =>
          (calls, rq, inr (ThrownError "imageFile.arrayBuffer is not a function"))
      | FormAbsent =>
          (calls, rq, inr (ThrownError
             "Cannot read properties of null (reading 'arrayBuffer')"))
      end
  end.

(** POST, given the calls made to the service so far; it returns them
    with its own added. *)
Definition POST (calls : list UpstreamCall) (rq : Request)
    (apiKey : option string) (wait : WaitOutcome) (fetch : FetchOutcome)
    : list UpstreamCall * Response Json :=
  match POST_try calls rq apiKey wait with
  | (calls, _, inl resp) => (calls, resp)
  | (calls, rq, inr error) =>
      match POST_fallback calls rq fetch with
      | (calls, _, inl resp) => (calls, resp)
      | (calls, _, inr fallbackError) =>
          (calls, mkResponse 500
                    (JsonError ("Failed to generate video with Gen-4 Turbo. SDK Error: "
                                  +:+ instance_message error +:+ ". API Error: "
                                  +:+ instance_message fallbackError)))
      end
  end.

End GenerateVideoWait.

(** * Properties *)

(** ** The rate limiter *)

Module RateLimitFacts.

Import RateLimit.

(** Case analysis on the first comparison [_ <? _] of the goal. *)
Ltac case_ltb :=
  match goal with
  | |- context [?a <? ?b] =>
      let H := fresh "Hlt" in
      destruct (a <? b) eqn:H;
      [apply Z.ltb_lt in H | apply Z.ltb_ge in H]
  end.

Lemma with_store_id rl : with_store rl (store rl) = rl.
Proof. by destruct rl. Qed.

Lemma check_limit rl key now : limit (check rl key now).1 = limit rl.
Proof.
  unfold check.
  destruct (store rl !! key) as [e|]; simpl; [|done].
  destruct (now >? resetTime e); simpl; [done|].
  by destruct (count e >=? limit rl).
Qed.

Lemma check_windowMs rl key now : windowMs (check rl key now).1 = windowMs rl.
Proof.
  unfold check.
  destruct (store rl !! key) as [e|]; simpl; [|done].
  destruct (now >? resetTime e); simpl; [done|].
  by destruct (count e >=? limit rl).
Qed.

(** A check touches the entry of its own key only. *)
Lemma check_other rl key now k :
  key ≠ k → store (check rl key now).1 !! k = store rl !! k.
Proof.
  intros Hne. unfold check.
  destruct (store rl !! key) as [e|]; simpl.
  - destruct (now >? resetTime e); simpl.
    + by rewrite lookup_insert_ne, lookup_delete_ne.
    + destruct (count e >=? limit rl); simpl; [done|].
      by rewrite lookup_insert_ne.
  - by rewrite lookup_insert_ne.
Qed.

(** The first request of a key, or the first one after its window. *)
Lemma check_opens rl key now :
  match store rl !! key with
  | Some e => now > resetTime e
  | None => True
  end →
  check rl key now =
    (with_store rl (<[key := mkEntry 1 (now + windowMs rl)]> (store rl)),
     mkResult true (limit rl - 1)).
Proof.
  intros Hopen. unfold check.
  destruct (store rl !! key) as [e|] eqn:He; simpl; [|done].
  assert ((now >? resetTime e) = true) as -> by (apply Z.gtb_lt; lia).
  by rewrite insert_delete_eq.
Qed.

(** A request inside the window, below the limit. *)
Lemma check_counts rl key now e :
  store rl !! key = Some e → now ≤ resetTime e → count e < limit rl →
  check rl key now =
    (with_store rl (<[key := mkEntry (count e + 1) (resetTime e)]> (store rl)),
     mkResult true (limit rl - (count e + 1))).
Proof.
  intros He Hnow Hc. unfold check. rewrite He. simpl.
  assert ((now >? resetTime e) = false) as ->.
  { apply not_true_is_false. rewrite Z.gtb_lt. lia. }
  assert ((count e >=? limit rl) = false) as ->.
  { apply not_true_is_false. rewrite Z.geb_le. lia. }
  done.
Qed.

(** A request inside the window, at the limit. *)
Lemma check_rejects rl key now e :
  store rl !! key = Some e → now ≤ resetTime e → limit rl ≤ count e →
  check rl key now = (rl, mkResult false 0).
Proof.
  intros He Hnow Hc. unfold check. rewrite He. simpl.
  assert ((now >? resetTime e) = false) as ->.
  { apply not_true_is_false. rewrite Z.gtb_lt. lia. }
  assert ((count e >=? limit rl) = true) as -> by (apply Z.geb_le; lia).
  by rewrite with_store_id.
Qed.

(** Only the third way out of [check] reports a failure, and it leaves
    the limiter as it was. *)
Lemma check_failure rl key now :
  success (check rl key now).2 = false → (check rl key now).1 = rl.
Proof.
  unfold check.
  destruct (store rl !! key) as [e|]; simpl; [|done].
  destruct (now >? resetTime e); simpl; [done|].
  destruct (count e >=? limit rl); simpl; [|done].
  intros _. apply with_store_id.
Qed.

Definition bounded (lim : Z) (s : gmap string RateLimitEntry) : Prop :=
  ∀ k e, s !! k = Some e → count e ≤ lim.

Lemma check_bounded rl key now :
  1 ≤ limit rl → bounded (limit rl) (store rl) →
  bounded (limit rl) (store (check rl key now).1).
Proof.
  intros Hlim Hb k e'.
  destruct (decide (key = k)) as [->|Hne]; [|rewrite check_other by done; apply Hb].
  unfold check.
  destruct (store rl !! k) as [e|] eqn:He; simpl.
  - destruct (now >? resetTime e); simpl.
    + rewrite lookup_insert_eq. intros [= <-]. simpl. lia.
    + destruct (count e >=? limit rl) eqn:Hc; simpl.
      * rewrite He. intros [= <-]. by apply (Hb k).
      * rewrite lookup_insert_eq. intros [= <-]. simpl.
        apply not_true_iff_false in Hc. rewrite Z.geb_le in Hc. lia.
  - rewrite lookup_insert_eq. intros [= <-]. simpl. lia.
Qed.

Lemma cleanup_bounded rl now :
  bounded (limit rl) (store rl) → bounded (limit rl) (store (cleanup rl now)).
Proof.
  intros Hb k e. unfold cleanup. simpl.
  rewrite map_lookup_filter_Some. intros [He _]. by apply (Hb k).
Qed.

Lemma apply_op_limit rl o : limit (apply_op rl o) = limit rl.
Proof. destruct o; simpl; [apply check_limit | done]. Qed.

Lemma run_ops_limit ops : ∀ rl, limit (run_ops rl ops) = limit rl.
Proof.
  induction ops as [|o ops IH]; intros rl; simpl; [done|].
  unfold run_ops in *. simpl. by rewrite IH, apply_op_limit.
Qed.

Lemma run_ops_bounded ops : ∀ rl,
  1 ≤ limit rl → bounded (limit rl) (store rl) →
  bounded (limit rl) (store (run_ops rl ops)).
Proof.
  induction ops as [|o ops IH]; intros rl Hlim Hb; [done|].
  unfold run_ops in *. simpl.
  rewrite <- (apply_op_limit rl o).
  apply IH; rewrite apply_op_limit; [done|].
  destruct o; simpl; [by apply check_bounded | by apply cleanup_bounded].
Qed.

(** The calls of one key inside its window, from an entry with count
    [count e] on. *)
Lemma checks_in_window k calls : ∀ rl e,
  store rl !! k = Some e →
  (∀ now, (k, now) ∈ calls → now ≤ resetTime e) →
  ∀ (i : nat) r, checks_of k rl calls !! i = Some r →
    r = if count e + Z.of_nat i <? limit rl
        then mkResult true (limit rl - (count e + Z.of_nat i + 1))
        else mkResult false 0.
Proof.
  induction calls as [|[k' now] calls IH]; intros rl e He Hin i r; [done|].
  simpl. destruct (check rl k' now) as [rl' res] eqn:Hchk.
  destruct (decide (k' = k)) as [->|Hne].
  - assert (now ≤ resetTime e) as Hnow by (apply Hin; left).
    destruct (Z.lt_ge_cases (count e) (limit rl)) as [Hc|Hc].
    + rewrite (check_counts rl k now e) in Hchk by done.
      injection Hchk as <- <-.
      destruct i as [|i].
      * intros [= <-]. case_ltb; [f_equal; lia | lia].
      * intros Hr. simpl in Hr.
        apply (IH _ (mkEntry (count e + 1) (resetTime e))) in Hr.
        -- simpl in Hr. subst r.
           replace (count e + 1 + Z.of_nat i) with (count e + Z.of_nat (S i)) by lia.
           done.
        -- simpl. apply lookup_insert_eq.
        -- simpl. intros now' Hin'. apply Hin. by right.
    + rewrite (check_rejects rl k now e) in Hchk by done.
      injection Hchk as <- <-.
      destruct i as [|i].
      * intros [= <-]. case_ltb; [lia | done].
      * intros Hr. simpl in Hr. apply (IH _ e) in Hr; [|done|].
        -- subst r. repeat case_ltb; solve [done | lia].
        -- intros now' Hin'. apply Hin. by right.
  - intros Hr.
    assert (rl' = (check rl k' now).1) as -> by (by rewrite Hchk).
    eapply IH in Hr.
    + rewrite check_limit in Hr. exact Hr.
    + rewrite check_other by done. exact He.
    + intros now' Hin'. apply Hin. by right.
Qed.

(** C3.  A window of a key opens with a check made when the key has no
    entry or when the [resetTime] of its entry has passed: that check
    sets the counter to 1 and succeeds with [remaining = limit - 1].  Of
    the checks of the key made from then on up to the new [resetTime],
    in any interleaving with checks of other keys, exactly the first
    [limit] (10 for the exported limiter) succeed, the [i]-th of them
    with [remaining = limit - i], and every later one fails with
    [remaining = 0]. *)
Theorem fixed_window (rl : t) (k : string) (t0 : Z) (calls : list (string * Z)) :
  1 ≤ limit rl →
  match store rl !! k with
  | Some e => t0 > resetTime e
  | None => True
  end →
  Forall (λ c, c.1 = k → c.2 ≤ t0 + windowMs rl) calls →
  store (check rl k t0).1 !! k = Some (mkEntry 1 (t0 + windowMs rl)) ∧
  ∀ (i : nat) r, checks_of k rl ((k, t0) :: calls) !! i = Some r →
    r = if Z.of_nat i <? limit rl
        then mkResult true (limit rl - (Z.of_nat i + 1))
        else mkResult false 0.
Proof.
  intros Hlim Hopen Hcalls.
  rewrite (check_opens rl k t0 Hopen). simpl.
  split; [apply lookup_insert_eq|].
  intros i r. rewrite (check_opens rl k t0 Hopen).
  destruct (decide (k = k)) as [_|]; [|done].
  destruct i as [|i].
  - intros [= <-]. case_ltb; [f_equal; lia | lia].
  - intros Hr. simpl in Hr.
    apply (checks_in_window k calls _ (mkEntry 1 (t0 + windowMs rl))) in Hr.
    + simpl in Hr. subst r.
      replace (1 + Z.of_nat i) with (Z.of_nat (S i)) by lia. done.
    + simpl. apply lookup_insert_eq.
    + simpl. intros now Hin.
      rewrite Forall_forall in Hcalls. by apply (Hcalls (k, now)).
Qed.

Lemma fixed_window_witness :
  1 ≤ limit rateLimit
  ∧ store (check rateLimit "203.0.113.7" 1000).1 !! "203.0.113.7"
    = Some (mkEntry 1 61000)
  ∧ ∀ (i : nat) r,
      checks_of "203.0.113.7" rateLimit
        (("203.0.113.7", 1000) ::
         [("203.0.113.7", 1001); ("198.51.100.2", 1002); ("203.0.113.7", 1003);
          ("203.0.113.7", 2000); ("203.0.113.7", 2500); ("203.0.113.7", 3000);
          ("203.0.113.7", 4000); ("203.0.113.7", 5000); ("203.0.113.7", 6000);
          ("203.0.113.7", 61000); ("203.0.113.7", 61000); ("198.51.100.2", 99999);
          ("203.0.113.7", 900)]) !! i = Some r →
      r = if Z.of_nat i <? 10
          then mkResult true (10 - (Z.of_nat i + 1))
          else mkResult false 0.
Proof.
  split; [simpl; lia|].
  apply (fixed_window rateLimit "203.0.113.7" 1000).
  - simpl. lia.
  - exact I.
  - repeat (constructor; [simpl; intros Hk; first [lia | discriminate Hk]|]).
    constructor.
Defined.

(** C9.  In every state the exported kind of limiter reaches from its
    construction through calls of [check] and [cleanup], no stored count
    exceeds the limit; and a [check] that reports failure leaves the entry
    of its key as it was. *)
Theorem count_within_limit (lim win : Z) (ops : list op) :
  1 ≤ lim →
  let rl := run_ops (new lim win) ops in
  (∀ k e, store rl !! k = Some e → count e ≤ lim) ∧
  (∀ key now, success (check rl key now).2 = false →
     store (check rl key now).1 !! key = store rl !! key).
Proof.
  intros Hlim rl. split.
  - intros k e He.
    pose proof (run_ops_bounded ops (new lim win) Hlim) as Hb.
    simpl in Hb. apply (Hb ltac:(done) k e He).
  - intros key now Hfail. by rewrite check_failure.
Qed.

Lemma count_within_limit_witness :
  let rl := run_ops rateLimit [OpCheck "a" 0; OpCheck "a" 1; OpCleanup 5; OpCheck "b" 70000] in
  (∀ k e, store rl !! k = Some e → count e ≤ 10) ∧
  (∀ key now, success (check rl key now).2 = false →
     store (check rl key now).1 !! key = store rl !! key).
Proof.
  apply (count_within_limit 10 60000
           [OpCheck "a" 0; OpCheck "a" 1; OpCleanup 5; OpCheck "b" 70000]).
  lia.
Defined.

End RateLimitFacts.

(** ** The task route *)

Module GenerateFacts.

Import Generate.

(** *** Lists *)

Lemma alter_snoc {A} (f : A → A) (l : list A) (x : A) :
  alter f (length l) (l ++ [x]) = l ++ [f x].
Proof. induction l as [|y l IH]; simpl; [done|]. by f_equal. Qed.

Lemma list_alter_compose {A} (f g : A → A) (l : list A) (i : nat) :
  alter (f ∘ g) i l = alter f i (alter g i l).
Proof.
  revert i. induction l as [|y l IH]; intros [|i]; simpl; try done.
  f_equal. apply IH.
Qed.

Lemma lookup_snoc_eq {A} (l : list A) (x : A) : (l ++ [x]) !! length l = Some x.
Proof. rewrite lookup_app_r by done. by rewrite Nat.sub_diag. Qed.

Lemma lookup_snoc_Some {A} (l : list A) (x y : A) (i : nat) :
  (l ++ [x]) !! i = Some y →
  (i < length l)%nat ∧ l !! i = Some y ∨ i = length l ∧ y = x.
Proof.
  rewrite lookup_app_Some. intros [H|[Hge H]].
  - left. split; [by eapply lookup_lt_Some | done].
  - right. destruct (i - length l)%nat as [|n] eqn:Hn; simpl in H; [|done].
    split; [lia | congruence].
Qed.

Lemma not_elem_of_delete_NoDup {A} (l : list A) (i : nat) (x : A) :
  NoDup l → l !! i = Some x → x ∉ delete i l.
Proof.
  intros Hnd Hi. apply delete_Permutation in Hi.
  rewrite Hi in Hnd. by apply NoDup_cons in Hnd as [? _].
Qed.

Lemma NoDup_delete {A} (l : list A) (i : nat) : NoDup l → NoDup (delete i l).
Proof. intros Hnd. eapply sublist_NoDup; [done | apply sublist_delete]. Qed.

Lemma elem_of_delete_ne {A} (l : list A) (i : nat) (x y : A) :
  l !! i = Some x → y ≠ x → y ∈ delete i l ↔ y ∈ l.
Proof.
  intros Hi Hne. apply delete_Permutation in Hi.
  rewrite Hi at 2. rewrite elem_of_cons. split; [by right | by intros [?|?]].
Qed.

(** *** The history of status assignments *)

Lemma statuses_of_app r l1 l2 :
  statuses_of r (l1 ++ l2) = statuses_of r l1 ++ statuses_of r l2.
Proof. unfold statuses_of. by rewrite filter_app, fmap_app. Qed.

Lemma statuses_of_cons_eq r s l : statuses_of r ((r, s) :: l) = s :: statuses_of r l.
Proof. unfold statuses_of. by rewrite filter_cons_True. Qed.

Lemma statuses_of_cons_ne r r' s l :
  r' ≠ r → statuses_of r ((r', s) :: l) = statuses_of r l.
Proof. intros Hne. unfold statuses_of. by rewrite filter_cons_False. Qed.

Lemma statuses_of_fresh r l :
  (∀ r' s, (r', s) ∈ l → r' ≠ r) → statuses_of r l = [].
Proof.
  induction l as [|[r' s] l IH]; intros Hl; [done|].
  rewrite statuses_of_cons_ne.
  - apply IH. intros r'' s' Hin. apply (Hl r'' s'). by right.
  - apply (Hl r' s). by left.
Qed.

(** *** The invariant of the module *)

(** The task objects referred to by a suspended [processTask]. *)
Definition refs (st : State) : list nat := s_task <$> suspended st.

(** What holds of a task object, by its status: whether a [processTask]
    still holds it, which of [result] and [error] it has, and the
    statuses it was assigned so far. *)
Definition obj_ok (rs : list nat) (log : list (nat * Status)) (r : nat)
    (t : Task) : Prop :=
  match status t with
  | pending => False
  | processing =>
      r ∈ rs ∧ result t = None ∧ error t = None
      ∧ statuses_of r log = [pending; processing]
  | completed =>
      (r ∉ rs) ∧ is_Some (result t) ∧ error t = None
      ∧ statuses_of r log = [pending; processing; completed]
  | failed =>
      (r ∉ rs) ∧ result t = None ∧ is_Some (error t)
      ∧ statuses_of r log = [pending; processing; failed]
  end.

Record inv (st : State) : Prop := mkInv {
  inv_heap : ∀ r t, heap st !! r = Some t → obj_ok (refs st) (status_log st) r t;
  inv_suspended : ∀ s, s ∈ suspended st →
    ∃ t, heap st !! s_task s = Some t ∧ id t = s_taskId s;
  inv_nodup : NoDup (refs st);
  inv_log : ∀ r s, (r, s) ∈ status_log st → (r < length (heap st))%nat;
  inv_tasks : ∀ k r, tasks st !! k = Some r →
    ∃ t, heap st !! r = Some t ∧ id t = k
}.

Lemma inv_init : inv init.
Proof.
  split; simpl.
  - intros r t H. inversion H.
  - intros s H. inversion H.
  - apply NoDup_nil_2.
  - intros r s H. inversion H.
  - intros k r H. by rewrite lookup_empty in H.
Qed.

Lemma inv_ref_processing st r t :
  inv st → r ∈ refs st → heap st !! r = Some t →
  status t = processing ∧ result t = None ∧ error t = None
  ∧ statuses_of r (status_log st) = [pending; processing].
Proof.
  intros Hinv Hr Ht. pose proof (inv_heap st Hinv r t Ht) as Hok.
  unfold obj_ok in Hok.
  destruct (status t); [done | by destruct Hok as (_ & ? & ? & ?) | | ];
    by destruct Hok as [Hn _].
Qed.

Lemma inv_ref_lt st r : inv st → r ∈ refs st → (r < length (heap st))%nat.
Proof.
  intros Hinv Hr. unfold refs in Hr.
  apply list_elem_of_fmap in Hr as (s & -> & Hs).
  destruct (inv_suspended st Hinv s Hs) as (t & Ht & _).
  by eapply lookup_lt_Some.
Qed.

(** *** What the steps do *)

(** The state POST leaves when it admits a task of type [ty]. *)
Definition admitted (st : State) (rl : RateLimit.t) (ty : TaskType)
    (env : PostEnv) : State :=
  let r := length (heap st) in
  let k := randomUUID env in
  if truthy_str (RUNWAY_API_KEY env) then
    mkState rl
      (heap st ++ [mkTask k ty processing 0 None None (date env)])
      (<[k := r]> (tasks st)) (timers st)
      (suspended st ++ [mkSuspended r k ty])
      (status_log st ++ [(r, pending); (r, processing)])
  else
    mkState rl
      (heap st ++ [mkTask k ty failed 0 None
                     (Some "RUNWAY_API_KEY is not configured") (date env)])
      (<[k := r]> (tasks st)) (timers st ++ [mkTimer k 900000])
      (suspended st)
      (status_log st ++ [(r, pending); (r, processing); (r, failed)]).

(** The key under which POST counts the request. *)
Definition ip_of (req : PostRequest) : string :=
  if truthy_str (forwarded_for req) then default "unknown" (forwarded_for req)
  else "unknown".

(** A request that passes the rate limiter and the input validation. *)
Definition passes (st : State) (req : PostRequest) (env : PostEnv)
    (ty : TaskType) : Prop :=
  RateLimit.success (RateLimit.check (limiter st) (ip_of req) (now env)).2 = true
  ∧ ∃ type prompt, body req = BodyFields type prompt
      ∧ truthy type = true ∧ truthy prompt = true
      ∧ task_type_of type = Some ty
      ∧ length_gt prompt MAX_PROMPT_LENGTH = false.

Definition capacity_error : Response Json :=
  mkResponse 429
    (JsonError "Maximum number of concurrent tasks reached. Please try again later.").

(** The ways out of POST: a refusal, which changes the rate limiter only,
    or an admission. *)
Lemma POST_cases st req env :
  let rl := (RateLimit.check (limiter st) (ip_of req) (now env)).1 in
  (∃ resp, POST st req env = (set_limiter rl st, resp)
      ∧ (http_status resp = 429 ∨ http_status resp = 400 ∨ http_status resp = 500)
      ∧ ((∃ ty, passes st req env ty) → resp = capacity_error
           ∧ MAX_CONCURRENT_TASKS ≤ Z.of_nat (length (activeTasks st))))
  ∨ (∃ ty, passes st req env ty
      ∧ Z.of_nat (length (activeTasks st)) < MAX_CONCURRENT_TASKS
      ∧ POST st req env
        = (admitted st rl ty env, mkResponse 200 (JsonTaskId (randomUUID env)))).
Proof.
  unfold POST, passes. fold (ip_of req).
  destruct (RateLimit.check (limiter st) (ip_of req) (now env)) as [rl chk]. simpl.
  destruct (RateLimit.success chk); simpl;
    [|left; eexists; split; [done|]; split; [by left|]; by intros (? & ? & ?)].
  destruct (body req) as [|type prompt]; simpl.
  { left. eexists. split; [done|]. split; [by do 2 right|].
    by intros (? & ? & ? & ? & ? & ?). }
  destruct (truthy type) eqn:Hty; simpl;
    [|left; eexists; split; [done|]; split; [by right; left|];
      intros (? & ? & ? & ? & [= <- <-] & ? & ?); congruence].
  destruct (truthy prompt) eqn:Hpr; simpl;
    [|left; eexists; split; [done|]; split; [by right; left|];
      intros (? & ? & ? & ? & [= <- <-] & ? & ? & ?); congruence].
  destruct (task_type_of type) as [ty|] eqn:Htt;
    [|left; eexists; split; [done|]; split; [by right; left|];
      intros (? & ? & ? & ? & [= <- <-] & ? & ? & ? & ?); congruence].
  destruct (length_gt prompt MAX_PROMPT_LENGTH) eqn:Hlen;
    [left; eexists; split; [done|]; split; [by right; left|];
      intros (? & ? & ? & ? & [= <- <-] & ? & ? & ? & ?); congruence|].
  change (activeTasks (set_limiter rl st)) with (activeTasks st).
  destruct (Z.of_nat (length (activeTasks st)) >=? MAX_CONCURRENT_TASKS) eqn:Hact.
  - left. eexists. split; [done|]. split; [by left|].
    intros _. split; [done|]. apply Z.geb_le in Hact. unfold activeTasks in *. lia.
  - right. exists ty. split; [split; [done|]; by exists type, prompt|].
    split; [apply not_true_iff_false in Hact; rewrite Z.geb_le in Hact; lia|].
    f_equal. unfold admitted, processTask. simpl.
    rewrite lookup_insert_eq. simpl.
    destruct (truthy_str (RUNWAY_API_KEY env)); simpl.
    + unfold set_suspended, assign_status, set_status_log, set_heap. simpl.
      rewrite alter_snoc. simpl. by rewrite <- app_assoc.
    + unfold processTask_catch, setTimeout, assign, set_timers, assign_status,
        set_status_log, set_heap. simpl.
      rewrite alter_snoc, alter_snoc, alter_snoc. simpl. by rewrite <- !app_assoc.
Qed.

(** The state in which the [i]-th suspended [processTask] has ended: [f] is
    what it assigned to its task object, [stt] the status among it. *)
Definition settled (st : State) (i : nat) (s : Suspended) (f : Task → Task)
    (stt : Status) (delay : Z) : State :=
  mkState (limiter st) (alter f (s_task s) (heap st)) (tasks st)
    (timers st ++ [mkTimer (s_taskId s) delay])
    (delete i (suspended st))
    (status_log st ++ [(s_task s, stt)]).

Definition complete (u : string) (t : Task) : Task :=
  with_result u (with_progress 100 (with_status completed t)).

Definition fail (m : string) (t : Task) : Task :=
  with_error m (with_status failed t).

Lemma settle_cases st i s o :
  suspended st !! i = Some s →
  (∃ u, step st (EvSettled i o) = settled st i s (complete u) completed 3600000)
  ∨ (∃ m, step st (EvSettled i o) = settled st i s (fail m) failed 900000).
Proof.
  intros Hi. unfold step. rewrite Hi.
  assert (∀ e st0, processTask_catch (s_task s) (s_taskId s) e
                     (set_suspended (delete i (suspended st0)) st0)
                   = settled st0 i s (fail (message_of e)) failed 900000) as Hcatch.
  { intros e st0. unfold processTask_catch, settled, setTimeout, assign,
      assign_status, fail. simpl. by rewrite <- list_alter_compose. }
  destruct o as [e|statusText errorData|oi ov]; simpl.
  - right. eexists. apply Hcatch.
  - right. eexists. apply (Hcatch (ThrownError _)).
  - destruct (truthy_str _).
    + left. eexists. unfold settled, setTimeout, assign, assign_status, complete.
      simpl. by rewrite <- !list_alter_compose.
    + right. eexists. apply (Hcatch (ThrownError _)).
Qed.

Lemma timeout_cases st i tm :
  timers st !! i = Some tm →
  step st (EvTimeout i)
  = mkState (limiter st) (heap st) (delete (timer_taskId tm) (tasks st))
      (delete i (timers st)) (suspended st) (status_log st).
Proof.
  intros Hi. unfold step, fire. rewrite Hi. simpl.
  destruct (tasks st !! timer_taskId tm) eqn:Hk; [done|].
  unfold set_timers. simpl. by rewrite delete_id.
Qed.

(** *** The invariant is kept *)

Lemma inv_set_limiter rl st : inv st → inv (set_limiter rl st).
Proof. intros [H1 H2 H3 H4 H5]. by split. Qed.

Lemma obj_ok_other rs rs' log log' r t :
  (r ∈ rs' ↔ r ∈ rs) → statuses_of r log' = statuses_of r log →
  obj_ok rs log r t → obj_ok rs' log' r t.
Proof.
  intros Hrs Hlog. unfold obj_ok. rewrite Hlog.
  destruct (status t); [done| | |]; by rewrite Hrs.
Qed.

Lemma inv_settled st i s f stt delay :
  inv st → suspended st !! i = Some s →
  (∀ t, status (f t) = stt ∧ id (f t) = id t) →
  (∀ t, result t = None → error t = None →
     match stt with
     | completed => is_Some (result (f t)) ∧ error (f t) = None
     | failed => result (f t) = None ∧ is_Some (error (f t))
     | _ => False
     end) →
  inv (settled st i s f stt delay).
Proof.
  intros Hinv Hi Hf Hfields.
  set (r := s_task s).
  assert (refs st !! i = Some r) as Hri.
  { unfold refs. by rewrite list_lookup_fmap, Hi. }
  assert (r ∈ refs st) as Hrin by (by eapply list_elem_of_lookup_2).
  assert (refs (settled st i s f stt delay) = delete i (refs st)) as Hrefs.
  { unfold refs. simpl. apply list_fmap_delete. }
  assert (∀ r' t', alter f r (heap st) !! r' = Some t' →
            ∃ t, heap st !! r' = Some t ∧ id t' = id t) as Hlook.
  { intros r' t'. destruct (decide (r = r')) as [<-|Hne].
    - rewrite list_lookup_alter_eq. destruct (heap st !! r) as [t|]; [|done].
      simpl. intros [= <-]. exists t. split; [done|]. apply Hf.
    - rewrite list_lookup_alter_ne by done. intros Ht. by exists t'. }
  assert (∀ r' t, heap st !! r' = Some t →
            ∃ t', alter f r (heap st) !! r' = Some t' ∧ id t' = id t) as Hkeep.
  { intros r' t Ht. destruct (decide (r = r')) as [<-|Hne].
    - rewrite list_lookup_alter_eq, Ht. simpl. exists (f t). split; [done|]. apply Hf.
    - rewrite list_lookup_alter_ne by done. by exists t. }
  split.
  - intros r' t'. rewrite Hrefs. simpl. fold r. intros Hl.
    destruct (decide (r = r')) as [<-|Hne].
    + rewrite list_lookup_alter_eq in Hl.
      destruct (heap st !! r) as [t|] eqn:Ht; [|done].
      simpl in Hl. injection Hl as <-.
      destruct (inv_ref_processing st r t Hinv Hrin Ht) as (Hs & Hres & Herr & Hlog).
      destruct (Hf t) as [Hst Hid]. specialize (Hfields t Hres Herr).
      assert (r ∉ delete i (refs st)) as Hnot.
      { apply not_elem_of_delete_NoDup; [apply Hinv | done]. }
      unfold obj_ok. rewrite Hst, statuses_of_app, Hlog, statuses_of_cons_eq.
      destruct stt; try done; by destruct Hfields.
    + rewrite list_lookup_alter_ne in Hl by done.
      apply (obj_ok_other (refs st) _ (status_log st)).
      * by apply (elem_of_delete_ne _ i r).
      * rewrite statuses_of_app, statuses_of_cons_ne by done. apply app_nil_r.
      * by apply Hinv.
  - intros s' Hs'. simpl in Hs'. apply list_elem_of_delete_inv in Hs'.
    destruct (inv_suspended st Hinv s' Hs') as (t & Ht & Hid).
    destruct (Hkeep _ _ Ht) as (t' & Ht' & Hid').
    exists t'. split; [done | congruence].
  - rewrite Hrefs. apply NoDup_delete, Hinv.
  - intros r' s'. simpl. rewrite length_alter, elem_of_app, list_elem_of_singleton.
    intros [Hin|[= -> ->]]; [by eapply inv_log | by apply inv_ref_lt].
  - intros k r' Hk. simpl in Hk.
    destruct (inv_tasks st Hinv k r' Hk) as (t & Ht & Hid).
    destruct (Hkeep _ _ Ht) as (t' & Ht' & Hid').
    exists t'. split; [done | congruence].
Qed.

Lemma inv_admitted st rl ty env : inv st → inv (admitted st rl ty env).
Proof.
  intros Hinv. unfold admitted.
  set (r := length (heap st)). set (k := randomUUID env).
  assert (r ∉ refs st) as Hfresh.
  { intros Hin. apply (inv_ref_lt st r Hinv) in Hin. unfold r in Hin. lia. }
  assert (statuses_of r (status_log st) = []) as Hnew.
  { apply statuses_of_fresh. intros r' s Hin ->.
    apply (inv_log st Hinv) in Hin. unfold r in Hin. lia. }
  assert (∀ r' log', (r' < r)%nat →
            statuses_of r' (status_log st ++ ((λ s, (r, s)) <$> log'))
            = statuses_of r' (status_log st)) as Hold.
  { intros r' log' Hlt. rewrite statuses_of_app.
    rewrite (statuses_of_fresh r' (_ <$> log')); [apply app_nil_r|].
    intros r'' s Hin ->. apply list_elem_of_fmap in Hin as (? & [= -> _] & _). lia. }
  destruct (truthy_str (RUNWAY_API_KEY env)); split; simpl.
  - intros r' t' Hl. apply lookup_snoc_Some in Hl as [[Hlt Hl]|[-> ->]].
    + apply (obj_ok_other (refs st) _ (status_log st)).
      * unfold refs. simpl. rewrite fmap_app. simpl.
        rewrite elem_of_app, list_elem_of_singleton.
        fold r. split; [intros [?|?]; [done|lia] | by left].
      * apply (Hold r' [pending; processing] Hlt).
      * by apply Hinv.
    + unfold obj_ok. simpl. fold r.
      rewrite statuses_of_app, Hnew, !statuses_of_cons_eq.
      split; [|done]. unfold refs. simpl. rewrite fmap_app. simpl.
      rewrite elem_of_app, list_elem_of_singleton. by right.
  - intros s. rewrite elem_of_app, list_elem_of_singleton. intros [Hs| ->].
    + destruct (inv_suspended st Hinv s Hs) as (t & Ht & Hid).
      exists t. split; [by apply lookup_app_l_Some | done].
    + simpl. eexists. split; [apply lookup_snoc_eq | done].
  - unfold refs. simpl. rewrite fmap_app. simpl.
    apply NoDup_app. split; [apply Hinv|].
    split; [|apply NoDup_singleton].
    intros x Hx. rewrite list_elem_of_singleton. intros ->. by apply Hfresh.
  - intros r' s. rewrite length_app, elem_of_app. simpl.
    intros [Hin|Hin]; [apply (inv_log st Hinv) in Hin; lia|].
    fold r in Hin. repeat (apply elem_of_cons in Hin as [[= -> _]|Hin]; [fold r; lia|]).
    inversion Hin.
  - intros k' r'. fold k r. rewrite lookup_insert. case_decide as Hk.
    + intros [= <-]. subst k'. eexists. split; [apply lookup_snoc_eq | done].
    + intros Hl. destruct (inv_tasks st Hinv k' r' Hl) as (t & Ht & Hid).
      exists t. split; [by apply lookup_app_l_Some | done].
  - intros r' t' Hl. apply lookup_snoc_Some in Hl as [[Hlt Hl]|[-> ->]].
    + apply (obj_ok_other (refs st) _ (status_log st)).
      * done.
      * apply (Hold r' [pending; processing; failed] Hlt).
      * by apply Hinv.
    + unfold obj_ok. simpl. fold r.
      rewrite statuses_of_app, Hnew, !statuses_of_cons_eq.
      split; [done|]. split; [done|]. split; [by eexists | done].
  - intros s Hs. destruct (inv_suspended st Hinv s Hs) as (t & Ht & Hid).
    exists t. split; [by apply lookup_app_l_Some | done].
  - apply Hinv.
  - intros r' s. rewrite length_app, elem_of_app. simpl.
    intros [Hin|Hin]; [apply (inv_log st Hinv) in Hin; lia|].
    fold r in Hin. repeat (apply elem_of_cons in Hin as [[= -> _]|Hin]; [fold r; lia|]).
    inversion Hin.
  - intros k' r'. fold k r. rewrite lookup_insert. case_decide as Hk.
    + intros [= <-]. subst k'. eexists. split; [apply lookup_snoc_eq | done].
    + intros Hl. destruct (inv_tasks st Hinv k' r' Hl) as (t & Ht & Hid).
      exists t. split; [by apply lookup_app_l_Some | done].
Qed.

Lemma inv_step st ev : inv st → inv (step st ev).
Proof.
  intros Hinv. destruct ev as [req env|taskId|i o|i].
  - simpl. destruct (POST_cases st req env) as [(resp & -> & _)|(ty & _ & _ & ->)]; simpl.
    + by apply inv_set_limiter.
    + by apply inv_admitted.
  - done.
  - destruct (suspended st !! i) as [s|] eqn:Hi; [|by simpl; rewrite Hi].
    destruct (settle_cases st i s o Hi) as [[u ->]|[m ->]].
    + by apply inv_settled.
    + by apply inv_settled.
  - destruct (timers st !! i) as [tm|] eqn:Hi; [|by simpl; rewrite Hi].
    rewrite (timeout_cases st i tm Hi).
    destruct Hinv as [H1 H2 H3 H4 H5]. split; try done.
    simpl. intros k r [_ Hk]%lookup_delete_Some. by apply H5.
Qed.

Lemma inv_run evs : ∀ st, inv st → inv (run st evs).
Proof.
  induction evs as [|ev evs IH]; intros st Hinv; [done|].
  apply IH. by apply inv_step.
Qed.

Lemma inv_reachable evs : inv (run init evs).
Proof. apply inv_run, inv_init. Qed.

(** *** Counting the active tasks *)

(** Whether the entry [kr] of the store refers to an active task. *)
Definition act (h : list Task) (kr : string * nat) : bool :=
  match h !! kr.2 with
  | Some t => is_active t
  | None => false
  end.

Definition active_entries (h : list Task) (l : list (string * nat))
    : list (string * nat) :=
  filter (λ kr, act h kr = true) l.

Lemma activeTasks_length st :
  length (activeTasks st)
  = length (active_entries (heap st) (map_to_list (tasks st))).
Proof.
  unfold activeTasks, Object_values, active_entries.
  induction (map_to_list (tasks st)) as [|kr l IH]; [done|].
  rewrite (filter_cons (λ kr, act (heap st) kr = true)).
  cbn [omap list_omap].
  destruct (heap st !! kr.2) as [t|] eqn:Hkr.
  - assert (act (heap st) kr = is_active t) as Hact by (unfold act; by rewrite Hkr).
    rewrite filter_cons.
    destruct (decide (is_active t = true)), (decide (act (heap st) kr = true));
      simpl; rewrite ?IH; congruence.
  - assert (act (heap st) kr = false) as Hact by (unfold act; by rewrite Hkr).
    destruct (decide (act (heap st) kr = true)); [congruence | done].
Qed.

Lemma active_entries_mono h h' l :
  (∀ kr, kr ∈ l → act h' kr = true → act h kr = true) →
  (length (active_entries h' l) ≤ length (active_entries h l))%nat.
Proof.
  unfold active_entries. induction l as [|kr l IH]; intros Hl; [done|].
  rewrite !filter_cons.
  assert (length (filter (λ kr, act h' kr = true) l)
          ≤ length (filter (λ kr, act h kr = true) l))%nat as Hle.
  { apply IH. intros kr' Hin. apply Hl. by right. }
  destruct (decide (act h' kr = true)) as [Ha|Ha].
  - apply Hl in Ha; [|by left]. destruct (decide (act h kr = true)); [simpl; lia | done].
  - destruct (decide (act h kr = true)); simpl; lia.
Qed.

Lemma active_entries_delete h (m : gmap string nat) k :
  (length (active_entries h (map_to_list (delete k m)))
   ≤ length (active_entries h (map_to_list m)))%nat.
Proof.
  destruct (m !! k) as [x|] eqn:Hk; [|by rewrite delete_id].
  unfold active_entries. rewrite <- (map_to_list_delete m k x Hk).
  rewrite filter_cons. destruct (decide (act h (k, x) = true)); simpl; lia.
Qed.

Lemma active_entries_insert h (m : gmap string nat) k r :
  (length (active_entries h (map_to_list (<[k := r]> m)))
   ≤ S (length (active_entries h (map_to_list (delete k m)))))%nat.
Proof.
  unfold active_entries.
  rewrite <- insert_delete_eq, map_to_list_insert by apply lookup_delete_eq.
  rewrite filter_cons. destruct (decide (act h (k, r) = true)); simpl; lia.
Qed.

(** A refused POST, a GET and a timer leave the count or lower it; the end
    of a [processTask] lowers it; an admission raises it by one at most. *)
Lemma active_step st ev :
  inv st →
  (length (activeTasks (step st ev)) ≤ length (activeTasks st))%nat
  ∨ (∃ req env ty, ev = EvPOST req env
       ∧ Z.of_nat (length (activeTasks st)) < MAX_CONCURRENT_TASKS
       ∧ step st ev = admitted st
           (RateLimit.check (limiter st) (ip_of req) (now env)).1 ty env
       ∧ (length (activeTasks (step st ev)) ≤ S (length (activeTasks st)))%nat).
Proof.
  intros Hinv. destruct ev as [req env|taskId|i o|i].
  - simpl. destruct (POST_cases st req env) as [(resp & -> & _)|(ty & _ & Hlt & ->)].
    + by left.
    + right. exists req, env, ty. do 3 (split; [done|]). simpl.
      rewrite !activeTasks_length.
      set (rl := (RateLimit.check _ _ _).1).
      assert (tasks (admitted st rl ty env)
              = <[randomUUID env := length (heap st)]> (tasks st)) as ->.
      { unfold admitted. by destruct (truthy_str _). }
      etrans; [apply active_entries_insert|]. apply le_n_S.
      etrans; [|apply (active_entries_delete _ _ (randomUUID env))].
      apply active_entries_mono. intros [k r] Hin.
      apply elem_of_map_to_list in Hin. apply lookup_delete_Some in Hin as [_ Hk].
      destruct (inv_tasks st Hinv k r Hk) as (t & Ht & _).
      unfold act. simpl.
      assert (heap (admitted st rl ty env) !! r = Some t) as ->; [|by rewrite Ht].
      unfold admitted. destruct (truthy_str _); simpl; by apply lookup_app_l_Some.
  - by left.
  - left. destruct (suspended st !! i) as [s|] eqn:Hi; [|by simpl; rewrite Hi].
    rewrite !activeTasks_length.
    assert (∀ f stt d, (∀ t, is_active (f t) = false) →
              (length (active_entries (heap (settled st i s f stt d))
                         (map_to_list (tasks (settled st i s f stt d))))
               ≤ length (active_entries (heap st) (map_to_list (tasks st))))%nat)
      as Hsettled.
    { intros f stt d Hf. simpl. apply active_entries_mono. intros [k r] _.
      unfold act. simpl. destruct (decide (s_task s = r)) as [<-|Hne].
      - rewrite list_lookup_alter_eq. destruct (heap st !! s_task s); simpl; [|done].
        by rewrite Hf.
      - by rewrite list_lookup_alter_ne. }
    destruct (settle_cases st i s o Hi) as [[u ->]|[m ->]]; by apply Hsettled.
  - left. destruct (timers st !! i) as [tm|] eqn:Hi; [|by simpl; rewrite Hi].
    rewrite (timeout_cases st i tm Hi), !activeTasks_length. simpl.
    apply active_entries_delete.
Qed.

Lemma active_reachable evs :
  Z.of_nat (length (activeTasks (run init evs))) ≤ MAX_CONCURRENT_TASKS.
Proof.
  assert (∀ st, inv st →
            Z.of_nat (length (activeTasks st)) ≤ MAX_CONCURRENT_TASKS →
            Z.of_nat (length (activeTasks (run st evs))) ≤ MAX_CONCURRENT_TASKS) as H.
  { induction evs as [|ev evs IH]; intros st Hinv Hle; [done|].
    simpl. apply IH; [by apply inv_step|].
    destruct (active_step st ev Hinv) as [Hstep|(_ & _ & _ & _ & Hlt & _ & Hstep)]; lia. }
  apply H; [apply inv_init | done].
Qed.

(** *** What a step does to one task object *)

(** An object that exists before a step is left as it is, or it is the
    object of the [processTask] that ends in this step: it was
    [processing], it is completed or failed, and its cleanup is scheduled. *)
Lemma step_object st ev r t t' :
  inv st → heap st !! r = Some t → heap (step st ev) !! r = Some t' →
  t' = t
  ∨ (status t = processing
     ∧ ((∃ u, t' = complete u t
           ∧ timers (step st ev) = timers st ++ [mkTimer (id t) 3600000])
        ∨ (∃ m, t' = fail m t
             ∧ timers (step st ev) = timers st ++ [mkTimer (id t) 900000]))).
Proof.
  intros Hinv Ht Ht'. destruct ev as [req env|taskId|i o|i].
  - simpl in Ht'. left.
    destruct (POST_cases st req env) as [(resp & Hst & _)|(ty & _ & _ & Hst)];
      rewrite Hst in Ht'; simpl in Ht'; [congruence|].
    apply lookup_lt_Some in Ht as Hlt. unfold admitted in Ht'.
    destruct (truthy_str _); simpl in Ht'; rewrite lookup_app_l in Ht' by done;
      congruence.
  - simpl in Ht'. left. congruence.
  - destruct (suspended st !! i) as [s|] eqn:Hi;
      [|simpl in Ht'; rewrite Hi in Ht'; left; congruence].
    assert (s ∈ suspended st) as Hs by (by eapply list_elem_of_lookup_2).
    destruct (inv_suspended st Hinv s Hs) as (t0 & Ht0 & Hid).
    assert (s_task s ∈ refs st) as Hin by (by apply list_elem_of_fmap_2).
    destruct (inv_ref_processing st _ t0 Hinv Hin Ht0) as (Hproc & _).
    destruct (decide (s_task s = r)) as [Heq|Hne].
    + right. subst r. assert (t0 = t) as -> by congruence. split; [done|].
      rewrite Hid.
      destruct (settle_cases st i s o Hi) as [[u Hst]|[m Hst]];
        rewrite Hst in *; simpl in *;
        rewrite list_lookup_alter_eq, Ht in Ht'; simpl in Ht';
        injection Ht' as <-; [left | right]; eauto.
    + left. destruct (settle_cases st i s o Hi) as [[u Hst]|[m Hst]];
        rewrite Hst in *; simpl in *; rewrite list_lookup_alter_ne in * by done;
        congruence.
  - destruct (timers st !! i) as [tm|] eqn:Hi;
      [|simpl in Ht'; rewrite Hi in Ht'; left; congruence].
    rewrite (timeout_cases st i tm Hi) in Ht'. simpl in Ht'. left. congruence.
Qed.

(** An object that appears in a step is the task of an admitting POST: it
    is [processing], or, without an API key, failed with its cleanup
    scheduled. *)
Lemma step_new_object st ev r t' :
  inv st → heap st !! r = None → heap (step st ev) !! r = Some t' →
  ∃ req env ty, ev = EvPOST req env ∧ passes st req env ty
    ∧ r = length (heap st) ∧ tasks (step st ev) !! randomUUID env = Some r
    ∧ ((truthy_str (RUNWAY_API_KEY env) = true
         ∧ t' = mkTask (randomUUID env) ty processing 0 None None (date env)
         ∧ timers (step st ev) = timers st)
       ∨ (truthy_str (RUNWAY_API_KEY env) = false
           ∧ t' = mkTask (randomUUID env) ty failed 0 None
                    (Some "RUNWAY_API_KEY is not configured") (date env)
           ∧ timers (step st ev) = timers st ++ [mkTimer (randomUUID env) 900000])).
Proof.
  intros Hinv Ht. destruct ev as [req env|taskId|i o|i].
  - simpl. destruct (POST_cases st req env) as [(resp & -> & _)|(ty & Hp & _ & ->)]; simpl.
    + congruence.
    + intros Ht'. exists req, env, ty. do 2 (split; [done|]).
      unfold admitted in *.
      destruct (truthy_str (RUNWAY_API_KEY env)) eqn:Hkey; simpl in *;
        apply lookup_snoc_Some in Ht' as [[_ Ht']|[-> ->]]; try congruence;
        (split; [done|]); (split; [apply lookup_insert_eq|]); [left | right]; done.
  - simpl. congruence.
  - destruct (suspended st !! i) as [s|] eqn:Hi; [|simpl; rewrite Hi; congruence].
    intros Ht'. exfalso.
    assert (is_Some (heap st !! r)) as [? ?]; [|congruence].
    apply lookup_lt_is_Some. apply lookup_lt_Some in Ht'.
    destruct (settle_cases st i s o Hi) as [[u Hst]|[m Hst]];
      rewrite Hst in Ht'; simpl in Ht'; by rewrite length_alter in Ht'.
  - destruct (timers st !! i) as [tm|] eqn:Hi; [|simpl; rewrite Hi; congruence].
    rewrite (timeout_cases st i tm Hi). simpl. congruence.
Qed.

(** A step only adds to the history of assignments. *)
Lemma step_log st ev : status_log st `prefix_of` status_log (step st ev).
Proof.
  destruct ev as [req env|taskId|i o|i].
  - simpl. destruct (POST_cases st req env) as [(resp & -> & _)|(ty & _ & _ & ->)]; simpl.
    + done.
    + unfold admitted. destruct (truthy_str _); simpl; by eexists.
  - done.
  - destruct (suspended st !! i) as [s|] eqn:Hi; [|by simpl; rewrite Hi].
    destruct (settle_cases st i s o Hi) as [[u ->]|[m ->]]; simpl; by eexists.
  - destruct (timers st !! i) as [tm|] eqn:Hi; [|by simpl; rewrite Hi].
    by rewrite (timeout_cases st i tm Hi).
Qed.

(** An id leaves the store only when a timer set for it goes off. *)
Lemma step_delete st ev k :
  is_Some (tasks st !! k) → tasks (step st ev) !! k = None →
  ∃ i d, ev = EvTimeout i ∧ timers st !! i = Some (mkTimer k d).
Proof.
  intros [r Hk]. destruct ev as [req env|taskId|i o|i].
  - simpl. destruct (POST_cases st req env) as [(resp & -> & _)|(ty & _ & _ & ->)]; simpl.
    + congruence.
    + unfold admitted. destruct (truthy_str _); simpl; rewrite lookup_insert;
        case_decide; congruence.
  - simpl. congruence.
  - destruct (suspended st !! i) as [s|] eqn:Hi; [|simpl; rewrite Hi; congruence].
    destruct (settle_cases st i s o Hi) as [[u ->]|[m ->]]; simpl; congruence.
  - destruct (timers st !! i) as [[k' d]|] eqn:Hi; [|simpl; rewrite Hi; congruence].
    rewrite (timeout_cases st i _ Hi). simpl. rewrite lookup_delete.
    case_decide as Hkk; [|congruence]. subst k'. intros _. by exists i, d.
Qed.

(** Every pending timer has one of the two delays. *)
Definition timers_ok (st : State) : Prop :=
  ∀ tm, tm ∈ timers st → timer_delay tm = 3600000 ∨ timer_delay tm = 900000.

Lemma timers_step st ev : timers_ok st → timers_ok (step st ev).
Proof.
  intros Hok. destruct ev as [req env|taskId|i o|i].
  - simpl. destruct (POST_cases st req env) as [(resp & -> & _)|(ty & _ & _ & ->)]; simpl.
    + done.
    + unfold admitted, timers_ok. destruct (truthy_str _); simpl; [done|].
      intros tm [Hin| ->%list_elem_of_singleton]%elem_of_app; [by apply Hok | by right].
  - done.
  - destruct (suspended st !! i) as [s|] eqn:Hi; [|by simpl; rewrite Hi].
    destruct (settle_cases st i s o Hi) as [[u ->]|[m ->]]; unfold timers_ok; simpl;
      intros tm [Hin| ->%list_elem_of_singleton]%elem_of_app;
      solve [by apply Hok | by left | by right].
  - destruct (timers st !! i) as [tm|] eqn:Hi; [|by simpl; rewrite Hi].
    rewrite (timeout_cases st i tm Hi). unfold timers_ok. simpl.
    intros tm' Hin%list_elem_of_delete_inv. by apply Hok.
Qed.

Lemma timers_reachable evs : timers_ok (run init evs).
Proof.
  assert (∀ st, timers_ok st → timers_ok (run st evs)) as H.
  { induction evs as [|ev evs IH]; intros st Hok; [done|].
    simpl. by apply IH, timers_step. }
  apply H. intros tm Hin. inversion Hin.
Qed.

(** The statuses an object was assigned, and the status it has. *)
Lemma statuses_reachable evs r :
  let st := run init evs in
  match heap st !! r with
  | None => statuses_of r (status_log st) = []
  | Some t =>
      statuses_of r (status_log st) = [pending; processing]
        ∧ status t = processing
      ∨ statuses_of r (status_log st) = [pending; processing; completed]
          ∧ status t = completed
      ∨ statuses_of r (status_log st) = [pending; processing; failed]
          ∧ status t = failed
  end.
Proof.
  intros st. pose proof (inv_reachable evs) as Hinv. fold st in Hinv.
  destruct (heap st !! r) as [t|] eqn:Ht.
  - pose proof (inv_heap st Hinv r t Ht) as Hok. unfold obj_ok in Hok.
    destruct (status t); [done| | |]; destruct Hok as (_ & _ & _ & ->); auto.
  - apply statuses_of_fresh. intros r' s Hin ->.
    apply (inv_log st Hinv) in Hin. apply lookup_ge_None in Ht. lia.
Qed.

End GenerateFacts.

(** ** The upload route *)

Module GenerateVideoFacts.

Import GenerateVideo.

(** Once read, the body of a request cannot be read again: the fallback of
    POST, which starts by reading it, always ends in its own [catch]. *)
Lemma POST_try_bodyUsed st rq env : bodyUsed (POST_try st rq env).1.2 = true.
Proof.
  unfold POST_try, formData.
  destruct (bodyUsed rq) eqn:Hused; simpl; [done|].
  destruct (form rq) as [f|e]; simpl; [|done].
  destruct (negb (entry_truthy (image f)) || negb (entry_truthy (prompt f))); simpl; [done|].
  destruct (image f) as [|s|ty]; simpl; try done.
  destruct (negb (String.prefix "image/" ty)); simpl; [done|].
  destruct (negb (truthy_str (RUNWAY_API_KEY env))); simpl; [done|].
  by destruct (sdk_create env).
Qed.

Lemma POST_fallback_fails st rq env :
  bodyUsed rq = true → POST_fallback st rq env = (st, rq, inr (reread rq)).
Proof. intros Hused. unfold POST_fallback, formData. by rewrite Hused. Qed.

Lemma POST_unfold st rq env :
  POST st rq env
  = match POST_try st rq env with
    | (st', _, inl resp) => (st', resp)
    | (st', rq', inr error) =>
        (st', mkResponse 500
                (JsonError ("Failed to generate video with Gen-4 Turbo. SDK Error: "
                              +:+ instance_message error +:+ ". API Error: "
                              +:+ instance_message (reread rq'))))
    end.
Proof.
  unfold POST. pose proof (POST_try_bodyUsed st rq env) as Hused.
  destruct (POST_try st rq env) as [[st' rq'] [resp|error]]; [done|].
  simpl in Hused. by rewrite POST_fallback_fails.
Qed.

Lemma Wait_POST_try_bodyUsed calls rq apiKey wait :
  bodyUsed (GenerateVideoWait.POST_try calls rq apiKey wait).1.2 = true.
Proof.
  unfold GenerateVideoWait.POST_try, formData.
  destruct (bodyUsed rq) eqn:Hused; simpl; [done|].
  destruct (form rq) as [f|e]; simpl; [|done].
  destruct (negb (entry_truthy (image f)) || negb (entry_truthy (prompt f))); simpl; [done|].
  destruct (image f) as [|s|ty]; simpl; try done.
  destruct (negb (String.prefix "image/" ty)); simpl; [done|].
  destruct (negb (truthy_str apiKey)); simpl; [done|].
  destruct wait as [n e|n task_id output0]; simpl; [done|].
  by destruct (truthy_str output0).
Qed.

Lemma Wait_POST_unfold calls rq apiKey wait fetch :
  GenerateVideoWait.POST calls rq apiKey wait fetch
  = match GenerateVideoWait.POST_try calls rq apiKey wait with
    | (calls', _, inl resp) => (calls', resp)
    | (calls', rq', inr error) =>
        (calls', mkResponse 500
                   (GenerateVideoWait.JsonError
                      ("Failed to generate video with Gen-4 Turbo. SDK Error: "
                         +:+ instance_message error +:+ ". API Error: "
                         +:+ instance_message (reread rq'))))
    end.
Proof.
  unfold GenerateVideoWait.POST.
  pose proof (Wait_POST_try_bodyUsed calls rq apiKey wait) as Hused.
  destruct (GenerateVideoWait.POST_try calls rq apiKey wait)
    as [[calls' rq'] [resp|error]]; [done|].
  simpl in Hused. unfold GenerateVideoWait.POST_fallback, formData.
  by rewrite Hused.
Qed.

(** GET copies the status reported by the service into the local entry. *)
Lemma update_local_status m taskId data t :
  m !! taskId = Some t →
  ∃ t', update_local taskId data m !! taskId = Some t'
    ∧ status t' = data_status data.
Proof.
  intros Ht. unfold update_local. rewrite Ht. rewrite lookup_insert_eq.
  eexists. split; [done|].
  destruct (String.eqb (data_status data) "SUCCEEDED" && truthy_str (data_output data));
    destruct (String.eqb (data_status data) "FAILED" && truthy_str (data_error data));
    done.
Qed.

(** It writes [videoUrl] only along with SUCCEEDED, [error] only along with
    FAILED. *)
Lemma update_local_fields m taskId data t t' :
  m !! taskId = Some t → update_local taskId data m !! taskId = Some t' →
  (videoUrl t' ≠ videoUrl t → status t' = "SUCCEEDED")
  ∧ (error t' ≠ error t → status t' = "FAILED").
Proof.
  intros Ht. unfold update_local. rewrite Ht, lookup_insert_eq. intros [= <-].
  destruct (String.eqb (data_status data) "SUCCEEDED") eqn:Hs;
    destruct (String.eqb (data_status data) "FAILED") eqn:Hf;
    destruct (truthy_str (data_output data));
    destruct (truthy_str (data_error data)); simpl;
    try apply String.eqb_eq in Hs; try apply String.eqb_eq in Hf;
    split; intros Hne; try done.
Qed.


End GenerateVideoFacts.


(** * The claims *)

Module Claims.

Import Generate GenerateFacts.

(** ** C1: the order of the statuses *)

(** The sequences of statuses the claim allows. *)
Definition lifecycle (l : list Status) : bool :=
  subseq l [pending; processing; completed] || subseq l [pending; processing; failed].

(** The same for the strings kept in [videoTasks]. *)
Definition video_lifecycle (l : list string) : bool :=
  subseq l ["pending"; "processing"; "completed"]
  || subseq l ["pending"; "processing"; "failed"].

(** The names the generation service uses for the four statuses, read as
    the names of the claim. *)
Definition canon (s : string) : string :=
  if String.eqb s "PENDING" then "pending"
  else if String.eqb s "RUNNING" then "processing"
  else if String.eqb s "SUCCEEDED" then "completed"
  else if String.eqb s "FAILED" then "failed"
  else s.

Definition upload : GenerateVideo.Request :=
  GenerateVideo.mkRequest false
    (inl (GenerateVideo.mkForm (GenerateVideo.FormFile "image/png")
            (GenerateVideo.FormText "a cat dancing")))
    (ThrownError "Body is unusable").

(** The environment of a handler of the upload route in which the service
    answers with the task [t1] in the given status. *)
Definition service (status : string) (output error : option string)
    : GenerateVideo.Env :=
  GenerateVideo.mkEnv (Some "key_123") 1700000000000 (GenerateVideo.SdkTask "t1")
    (GenerateVideo.FetchOk (GenerateVideo.mkTaskData "t1" status output error)).

(** C1, as stated, fails on the upload route.  POST stores the task [t1]
    as pending; a GET to which the service reports SUCCEEDED stores that
    status, with the video and progress 100; a later GET to which the
    service reports RUNNING stores RUNNING over it.  The three statuses are
    no subsequence of pending, processing, completed or failed, also when
    the names of the service are read as those of the claim. *)
Lemma video_status_regresses :
  let st1 := (GenerateVideo.POST GenerateVideo.init upload (service "PENDING" None None)).1 in
  let st2 := (GenerateVideo.GET st1 (Some "t1")
                (service "SUCCEEDED" (Some "https://cdn/v.mp4") None)).1 in
  let st3 := (GenerateVideo.GET st2 (Some "t1") (service "RUNNING" None None)).1 in
  GenerateVideo.status <$> GenerateVideo.videoTasks st1 !! "t1" = Some "pending"
  ∧ GenerateVideo.status <$> GenerateVideo.videoTasks st2 !! "t1" = Some "SUCCEEDED"
  ∧ GenerateVideo.status <$> GenerateVideo.videoTasks st3 !! "t1" = Some "RUNNING"
  ∧ video_lifecycle ["pending"; "SUCCEEDED"; "RUNNING"] = false
  ∧ video_lifecycle (canon <$> ["pending"; "SUCCEEDED"; "RUNNING"]) = false.
Proof. vm_compute. repeat split. Qed.

(** C1, amended.  On the task route, the statuses assigned to a task
    object, from its creation on and in every execution, are a subsequence
    of pending, processing, completed or of pending, processing, failed, the
    last of them being the status the object has; a step leaves the status
    of an object or takes it from processing to completed or failed; a
    completed or failed object keeps its status.  On the upload route, GET
    stores the status the service reports over the one it finds. *)
Theorem status_moves_forward (evs : list Event) (ev : Event) (r : nat) :
  let st := run init evs in
  lifecycle (statuses_of r (status_log st)) = true
  ∧ (∀ t, heap st !! r = Some t →
       last (statuses_of r (status_log st)) = Some (status t))
  ∧ (∀ t t', heap st !! r = Some t → heap (step st ev) !! r = Some t' →
       status t' = status t
       ∨ (status t = processing ∧ terminal (status t') = true))
  ∧ (∀ t t', heap st !! r = Some t → terminal (status t) = true →
       heap (step st ev) !! r = Some t' → status t' = status t)
  ∧ (∀ vst taskId env data vt,
       truthy_str (Some taskId) = true →
       truthy_str (GenerateVideo.RUNWAY_API_KEY env) = true →
       GenerateVideo.fetch env = GenerateVideo.FetchOk data →
       GenerateVideo.videoTasks vst !! taskId = Some vt →
       ∃ vt', GenerateVideo.videoTasks
                (GenerateVideo.GET vst (Some taskId) env).1 !! taskId = Some vt'
         ∧ GenerateVideo.status vt' = GenerateVideo.data_status data).
Proof.
  intros st. pose proof (inv_reachable evs) as Hinv. fold st in Hinv.
  pose proof (statuses_reachable evs r) as Hst. simpl in Hst. fold st in Hst.
  assert (∀ t t', heap st !! r = Some t → heap (step st ev) !! r = Some t' →
            status t' = status t
            ∨ (status t = processing ∧ terminal (status t') = true)) as Hstep.
  { intros t t' Ht Ht'.
    destruct (step_object st ev r t t' Hinv Ht Ht')
      as [->|(Hp & [(u & -> & _)|(m & -> & _)])]; auto. }
  split; [|split; [|split; [exact Hstep|split]]].
  - destruct (heap st !! r) as [t|]; [|by rewrite Hst].
    by destruct Hst as [[-> _]|[[-> _]|[-> _]]].
  - intros t Ht. rewrite Ht in Hst.
    by destruct Hst as [[-> ->]|[[-> ->]|[-> ->]]].
  - intros t t' Ht Hterm Ht'.
    destruct (Hstep t t' Ht Ht') as [?|[Hp _]]; [done|].
    rewrite Hp in Hterm. done.
  - intros vst taskId env data vt Hid Hkey Hfetch Hvt.
    unfold GenerateVideo.GET. rewrite Hid, Hkey, Hfetch. simpl.
    by apply (GenerateVideoFacts.update_local_status _ _ _ vt).
Qed.

Definition video_request (ip : string) : PostRequest :=
  mkPostRequest (Some ip) (BodyFields (JString "video") (JString "a cat dancing")).

Definition at_time (t : Z) (uuid : string) : PostEnv :=
  mkPostEnv t t uuid (Some "key_123").

(** One task, admitted and completed. *)
Definition one_completed : list Event :=
  [EvPOST (video_request "203.0.113.7")
     (at_time 1000 "0b9f5a3e-7e0c-4c55-9d2b-6d1f0f3a2c11");
   EvSettled 0 (FetchOk None (Some "https://cdn/v.mp4"))].

Lemma status_moves_forward_witness :
  let st := run init one_completed in
  terminal completed = true
  ∧ ∀ t', heap (step st (EvSettled 0 (FetchThrows ThrownOther))) !! 0%nat = Some t' →
          status t' = completed.
Proof.
  split; [reflexivity|]. intros t' Ht'.
  apply (proj1 (proj2 (proj2 (proj2
           (status_moves_forward one_completed
              (EvSettled 0 (FetchThrows ThrownOther)) 0%nat))))
           (mkTask "0b9f5a3e-7e0c-4c55-9d2b-6d1f0f3a2c11" video completed 100
              (Some "https://cdn/v.mp4") None 1000) t');
    [vm_compute; reflexivity | reflexivity | exact Ht'].
Defined.

(** ** C2: the cap on concurrent tasks *)

Lemma run_snoc st evs ev : run st (evs ++ [ev]) = step (run st evs) ev.
Proof. unfold run. by rewrite fold_left_app. Qed.

(** Five tasks admitted and still processing. *)
Definition five_processing : list Event :=
  [EvPOST (video_request "203.0.113.7") (at_time 1000 "0b9f5a3e-0001");
   EvPOST (video_request "203.0.113.7") (at_time 1001 "0b9f5a3e-0002");
   EvPOST (video_request "198.51.100.2") (at_time 1002 "0b9f5a3e-0003");
   EvPOST (video_request "203.0.113.7") (at_time 1003 "0b9f5a3e-0004");
   EvPOST (video_request "198.51.100.2") (at_time 1004 "0b9f5a3e-0005")].

(** C2, as stated, fails: with five tasks processing, a request without a
    prompt is answered 400, not 429. *)
Lemma full_store_answers_400 :
  let st := run init five_processing in
  Z.of_nat (length (activeTasks st)) = 5
  ∧ (POST st (mkPostRequest (Some "203.0.113.7")
                (BodyFields (JString "video") JUndefined))
       (at_time 1005 "0b9f5a3e-0006")).2
    = mkResponse 400 (JsonError "Type and prompt are required").
Proof. vm_compute. by split. Qed.

(** C2, amended.  In every state the module reaches, a POST made while
    five tasks or more are pending or processing adds no task: it changes
    the rate limiter only, and it answers 429, 400 or 500, 429 with the
    capacity error whenever the request passes the rate limiter and the
    input validation.  The number of pending or processing tasks is at most
    five before the POST and after it. *)
Theorem concurrency_cap (evs : list Event) (req : PostRequest) (env : PostEnv) :
  let st := run init evs in
  let rl := (RateLimit.check (limiter st) (ip_of req) (now env)).1 in
  (MAX_CONCURRENT_TASKS ≤ Z.of_nat (length (activeTasks st)) →
     (POST st req env).1 = set_limiter rl st
     ∧ (http_status (POST st req env).2 = 429
        ∨ http_status (POST st req env).2 = 400
        ∨ http_status (POST st req env).2 = 500)
     ∧ ((∃ ty, passes st req env ty) → (POST st req env).2 = capacity_error))
  ∧ Z.of_nat (length (activeTasks st)) ≤ MAX_CONCURRENT_TASKS
  ∧ Z.of_nat (length (activeTasks (POST st req env).1)) ≤ MAX_CONCURRENT_TASKS.
Proof.
  intros st rl. split; [|split].
  - intros Hfull.
    destruct (POST_cases st req env) as [(resp & -> & Hs & Hp)|(ty & _ & Hlt & _)]; [|lia].
    simpl. split; [done|]. split; [done|]. intros Hpass. by apply Hp.
  - apply active_reachable.
  - pose proof (active_reachable (evs ++ [EvPOST req env])) as H.
    by rewrite run_snoc in H.
Qed.

Lemma concurrency_cap_witness :
  let st := run init five_processing in
  (POST st (video_request "192.0.2.9") (at_time 1005 "0b9f5a3e-0006")).2
  = capacity_error.
Proof.
  intros st.
  apply (proj1 (concurrency_cap five_processing (video_request "192.0.2.9")
                  (at_time 1005 "0b9f5a3e-0006"))).
  - vm_compute. discriminate.
  - exists video. split; [reflexivity|]. eexists _, _. repeat split; reflexivity.
Defined.

(** ** C4: input validation *)

(** The bodies the claim wants refused: no type or another one than image
    and video, no prompt, an empty one, or one of more than 1000
    characters. *)
Definition invalid_fields (type prompt : JSValue) : Prop :=
  (type ≠ JString "image" ∧ type ≠ JString "video")
  ∨ prompt = JUndefined ∨ prompt = JNull ∨ prompt = JString ""
  ∨ ∃ s, prompt = JString s ∧ (1000 < String.length s)%nat.

Lemma task_type_of_Some type ty :
  task_type_of type = Some ty → type = JString "image" ∨ type = JString "video".
Proof.
  destruct type as [| | | |s|]; simpl; try done.
  destruct (String.eqb s "image") eqn:Hi; [apply String.eqb_eq in Hi; subst; auto|].
  destruct (String.eqb s "video") eqn:Hv; [apply String.eqb_eq in Hv; subst; auto|].
  done.
Qed.

(** Ten requests of one client inside one window of the rate limiter. *)
Definition ten_requests : list Event :=
  (λ n, EvPOST (mkPostRequest (Some "203.0.113.7") (BodyFields JUndefined JUndefined))
          (at_time (1000 + Z.of_nat n) "0b9f5a3e-0001")) <$> seq 0 10.

(** C4, as stated, fails: the eleventh request of a client inside a window
    of the rate limiter is answered 429 also when it has no prompt. *)
Lemma invalid_request_answers_429 :
  let st := run init ten_requests in
  (POST st (mkPostRequest (Some "203.0.113.7")
              (BodyFields (JString "video") JUndefined))
     (at_time 2000 "0b9f5a3e-0002")).2
  = mkResponse 429 (JsonError "Too many requests. Please try again later.").
Proof. vm_compute. reflexivity. Qed.

(** C4, amended.  A request that passes the rate limiter, whose body is
    read as a JSON value other than null, and that has no type or a type
    other than image and video, or no prompt, an empty one or one longer
    than 1000 characters, is answered 400, and nothing but the rate limiter
    changes.  A request is answered 200 only if its type is image or video
    and its prompt is truthy and not reported longer than 1000; a string
    prompt is then non-empty and of at most 1000 characters.  Every request
    answered otherwise leaves the store as it is.  A request stopped by the
    rate limiter is answered 429, whatever its body.  A request that passes
    the rate limiter and whose body cannot be read as JSON, or is null, is
    answered 500 by the [catch] block of the handler. *)
Theorem POST_validation (st : State) (req : PostRequest) (env : PostEnv) :
  let rl := (RateLimit.check (limiter st) (ip_of req) (now env)).1 in
  (∀ type prompt,
     RateLimit.success (RateLimit.check (limiter st) (ip_of req) (now env)).2 = true →
     body req = BodyFields type prompt → invalid_fields type prompt →
     ∃ msg, POST st req env = (set_limiter rl st, mkResponse 400 (JsonError msg)))
  ∧ (http_status (POST st req env).2 = 200 →
       ∃ type prompt, body req = BodyFields type prompt
         ∧ (type = JString "image" ∨ type = JString "video")
         ∧ truthy prompt = true
         ∧ length_gt prompt MAX_PROMPT_LENGTH = false
         ∧ ∀ s, prompt = JString s → s ≠ "" ∧ (String.length s ≤ 1000)%nat)
  ∧ (http_status (POST st req env).2 ≠ 200 → (POST st req env).1 = set_limiter rl st)
  ∧ (RateLimit.success (RateLimit.check (limiter st) (ip_of req) (now env)).2 = false →
       POST st req env
       = (set_limiter rl st,
          mkResponse 429 (JsonError "Too many requests. Please try again later.")))
  ∧ (RateLimit.success (RateLimit.check (limiter st) (ip_of req) (now env)).2 = true →
       body req = BodyUnreadable →
       POST st req env
       = (set_limiter rl st, mkResponse 500 (JsonError "Failed to create task"))).
Proof.
  intros rl. split; [|split; [|split; [|split]]].
  - intros type prompt Hrl Hbody Hinvalid.
    unfold POST. fold (ip_of req). fold rl.
    destruct (RateLimit.check (limiter st) (ip_of req) (now env)) as [rl' chk] eqn:Hchk.
    simpl in Hrl, rl. subst rl. rewrite Hrl, Hbody. simpl.
    destruct (truthy type) eqn:Hty; simpl; [|by eexists].
    destruct (truthy prompt) eqn:Hpr; simpl; [|by eexists].
    destruct (task_type_of type) as [ty|] eqn:Htt; [|by eexists].
    destruct (length_gt prompt MAX_PROMPT_LENGTH) eqn:Hlen; [by eexists|].
    exfalso. destruct Hinvalid as [[Hi Hv]|[->|[->|[->|(s & -> & Hs)]]]]; try done.
    + apply task_type_of_Some in Htt as [?|?]; done.
    + simpl in Hlen. apply not_true_iff_false in Hlen. rewrite Z.gtb_lt in Hlen.
      unfold MAX_PROMPT_LENGTH in Hlen. lia.
  - destruct (POST_cases st req env) as [(resp & -> & Hs & _)|(ty & Hp & _ & ->)]; simpl.
    + intros H200. rewrite H200 in Hs. by destruct Hs as [?|[?|?]].
    + intros _. destruct Hp as (_ & type & prompt & Hbody & Hty & Hpr & Htt & Hlen).
      exists type, prompt. do 4 (split; [done || by eapply task_type_of_Some|]).
      intros s ->. simpl in Hpr, Hlen. split.
      * intros ->. done.
      * apply not_true_iff_false in Hlen. rewrite Z.gtb_lt in Hlen.
        unfold MAX_PROMPT_LENGTH in Hlen. lia.
  - destruct (POST_cases st req env) as [(resp & -> & _)|(ty & _ & _ & ->)]; simpl; done.
  - intros Hrl. unfold POST. fold (ip_of req). fold rl.
    destruct (RateLimit.check (limiter st) (ip_of req) (now env)) as [rl' chk].
    simpl in Hrl, rl. subst rl. by rewrite Hrl.
  - intros Hrl Hbody. unfold POST. fold (ip_of req). fold rl.
    destruct (RateLimit.check (limiter st) (ip_of req) (now env)) as [rl' chk].
    simpl in Hrl, rl. subst rl. by rewrite Hrl, Hbody.
Qed.

(** A body that cannot be read is answered 500, not 400. *)
Example unreadable_body_answers_500 :
  (POST init (mkPostRequest (Some "203.0.113.7") BodyUnreadable)
     (at_time 1000 "0b9f5a3e-0001")).2
  = mkResponse 500 (JsonError "Failed to create task").
Proof. vm_compute. reflexivity. Qed.

Lemma POST_validation_witness :
  ∃ msg,
    POST init (mkPostRequest (Some "203.0.113.7")
                 (BodyFields (JString "video") (JString "")))
      (at_time 1000 "0b9f5a3e-0001")
    = (set_limiter
         (RateLimit.check (limiter init) "203.0.113.7" 1000).1 init,
       mkResponse 400 (JsonError msg)).
Proof.
  apply (proj1 (POST_validation init
                  (mkPostRequest (Some "203.0.113.7")
                     (BodyFields (JString "video") (JString "")))
                  (at_time 1000 "0b9f5a3e-0001"))
           (JString "video") (JString "")).
  - reflexivity.
  - reflexivity.
  - right. right. right. by left.
Defined.

(** ** C5: the status query *)



(** An id that names an inherited property is not answered 404. *)
Example GET_inherited_property :
  GET init (Some "constructor")
  = mkResponse 500 (JsonError "Failed to fetch task status").
Proof. vm_compute. reflexivity. Qed.



(** ** C6: the cleanup timers *)

(** One task, admitted and processing. *)
Definition one_processing : list Event :=
  [EvPOST (video_request "203.0.113.7")
     (at_time 1000 "0b9f5a3e-7e0c-4c55-9d2b-6d1f0f3a2c11")].

(** C6.  In every execution, the step in which a task object becomes
    completed or failed sets a timer for the id of the task, with a delay
    of 3600000 ms for a completed and of 900000 ms for a failed task.  When
    a timer goes off it deletes the id it was set for from the store,
    leaves every other id in it, and is gone from the pending timers.  An
    id leaves the store only in the step in which a timer set for it goes
    off; and no pending timer has another delay. *)
Theorem cleanup_scheduled (evs : list Event) (ev : Event) :
  let st := run init evs in
  let st' := step st ev in
  (∀ r t', heap st' !! r = Some t' → terminal (status t') = true →
     (∀ t, heap st !! r = Some t → terminal (status t) = false) →
     timers st' = timers st ++
       [mkTimer (id t') (if decide (status t' = completed) then 3600000 else 900000)])
  ∧ (∀ k, is_Some (tasks st !! k) → tasks st' !! k = None →
       ∃ i d, ev = EvTimeout i ∧ timers st !! i = Some (mkTimer k d))
  ∧ (∀ tm, tm ∈ timers st → timer_delay tm = 3600000 ∨ timer_delay tm = 900000)
  ∧ (∀ i tm, timers st !! i = Some tm →
       tasks (step st (EvTimeout i)) !! timer_taskId tm = None
       ∧ (∀ k, k ≠ timer_taskId tm →
            tasks (step st (EvTimeout i)) !! k = tasks st !! k)
       ∧ timers (step st (EvTimeout i)) = delete i (timers st)
       ∧ heap (step st (EvTimeout i)) = heap st).
Proof.
  intros st st'. subst st'.
  pose proof (inv_reachable evs) as Hinv. fold st in Hinv.
  split; [|split; [|split]].
  - intros r t' Ht' Hterm Hbefore.
    destruct (heap st !! r) as [t|] eqn:Ht.
    + specialize (Hbefore t eq_refl).
      destruct (step_object st ev r t t' Hinv Ht Ht')
        as [->|(_ & [(u & -> & ->)|(m & -> & ->)])]; [congruence|done|done].
    + destruct (step_new_object st ev r t' Hinv Ht Ht')
        as (req & env & ty & _ & _ & _ & _ & [(_ & -> & _)|(_ & -> & ->)]); done.
  - intros k. apply step_delete.
  - apply timers_reachable.
  - intros i tm Hi. rewrite (timeout_cases st i tm Hi). simpl.
    split; [apply lookup_delete_eq|]. split; [|done].
    intros k Hk. by apply lookup_delete_ne.
Qed.

Lemma cleanup_scheduled_witness :
  timers (step (run init one_processing)
            (EvSettled 0 (FetchOk None (Some "https://cdn/v.mp4"))))
  = [mkTimer "0b9f5a3e-7e0c-4c55-9d2b-6d1f0f3a2c11" 3600000]
  ∧ is_Some (tasks (run init one_completed)
               !! "0b9f5a3e-7e0c-4c55-9d2b-6d1f0f3a2c11")
  ∧ tasks (step (run init one_completed) (EvTimeout 0))
      !! "0b9f5a3e-7e0c-4c55-9d2b-6d1f0f3a2c11" = None.
Proof.
  split; [|split].
  2: { vm_compute. by eexists. }
  2: { apply (proj2 (proj2 (proj2 (cleanup_scheduled one_completed (EvGET None))))
                0%nat (mkTimer "0b9f5a3e-7e0c-4c55-9d2b-6d1f0f3a2c11" 3600000)).
       vm_compute. reflexivity. }
  apply (proj1 (cleanup_scheduled one_processing
                  (EvSettled 0 (FetchOk None (Some "https://cdn/v.mp4"))))
           0%nat
           (mkTask "0b9f5a3e-7e0c-4c55-9d2b-6d1f0f3a2c11" video completed 100
              (Some "https://cdn/v.mp4") None 1000)).
  - vm_compute. reflexivity.
  - reflexivity.
  - intros t Ht. vm_compute in Ht. injection Ht as <-. reflexivity.
Defined.

(** ** C7: the missing API key *)

Lemma passes_fun st req env ty ty' :
  passes st req env ty → passes st req env ty' → ty = ty'.
Proof.
  intros (_ & type & prompt & Hb & _ & _ & Ht & _)
         (_ & type' & prompt' & Hb' & _ & _ & Ht' & _).
  congruence.
Qed.





(** ** C8: the result and error fields *)

(** C8, as stated, fails on the upload route: a GET to which the service
    reports FAILED stores the error; a later GET to which it reports
    RUNNING stores that status and leaves the error in the entry. *)
Lemma video_error_outlives_failed :
  let st1 := (GenerateVideo.POST GenerateVideo.init upload (service "PENDING" None None)).1 in
  let st2 := (GenerateVideo.GET st1 (Some "t1")
                (service "FAILED" None (Some "generation failed"))).1 in
  let st3 := (GenerateVideo.GET st2 (Some "t1") (service "RUNNING" None None)).1 in
  GenerateVideo.videoTasks st3 !! "t1"
  = Some (GenerateVideo.mkVideoTask "t1" "RUNNING" 50 1700000000000 None
            (Some "generation failed")).
Proof. vm_compute. reflexivity. Qed.

(** C8, amended.  On the task route, in every state the module reaches, a
    task object has a result only if it is completed and an error only if
    it is failed; a step that changes the result of an object takes it from
    processing to completed, one that changes its error takes it from
    processing to failed.  On the upload route, a GET changes the video URL
    of an entry only when it stores the status SUCCEEDED and its error only
    when it stores FAILED. *)
Theorem result_error_fields (evs : list Event) (ev : Event) (r : nat) :
  let st := run init evs in
  (∀ t, heap st !! r = Some t →
     (is_Some (result t) → status t = completed)
     ∧ (is_Some (error t) → status t = failed))
  ∧ (∀ t t', heap st !! r = Some t → heap (step st ev) !! r = Some t' →
       (result t' ≠ result t → status t = processing ∧ status t' = completed)
       ∧ (error t' ≠ error t → status t = processing ∧ status t' = failed))
  ∧ (∀ m taskId data vt vt',
       m !! taskId = Some vt →
       GenerateVideo.update_local taskId data m !! taskId = Some vt' →
       (GenerateVideo.videoUrl vt' ≠ GenerateVideo.videoUrl vt →
          GenerateVideo.status vt' = "SUCCEEDED")
       ∧ (GenerateVideo.error vt' ≠ GenerateVideo.error vt →
            GenerateVideo.status vt' = "FAILED")).
Proof.
  intros st. pose proof (inv_reachable evs) as Hinv. fold st in Hinv.
  split; [|split].
  - intros t Ht. pose proof (inv_heap st Hinv r t Ht) as Hok. unfold obj_ok in Hok.
    destruct (status t); [done| | |].
    + destruct Hok as (_ & -> & -> & _). split; by intros [? ?].
    + destruct Hok as (_ & _ & -> & _). split; [done | by intros [? ?]].
    + destruct Hok as (_ & -> & _ & _). split; [by intros [? ?] | done].
  - intros t t' Ht Ht'.
    destruct (step_object st ev r t t' Hinv Ht Ht')
      as [->|(Hp & [(u & -> & _)|(m & -> & _)])]; simpl; by split.
  - apply GenerateVideoFacts.update_local_fields.
Qed.

Lemma result_error_fields_witness :
  (result <$> heap (run init one_completed) !! 0%nat) = Some (Some "https://cdn/v.mp4")
  ∧ ∀ t, heap (run init one_completed) !! 0%nat = Some t →
      (is_Some (result t) → status t = completed)
      ∧ (is_Some (error t) → status t = failed).
Proof.
  split; [vm_compute; reflexivity|].
  exact (proj1 (result_error_fields one_completed (EvGET None) 0%nat)).
Defined.

(** ** C10: uploads that are not images *)

(** C10.  When the uploaded file of a POST of the upload route has a MIME
    type that does not start with [image/], both variants of the handler
    answer 400; the handler with the store leaves the store and the list of
    calls to the generation service as they were, and so does the other one
    with its list of calls. *)
Theorem non_image_upload_rejected
    (vst : GenerateVideo.State) (rq : GenerateVideo.Request)
    (env : GenerateVideo.Env) (calls : list GenerateVideo.UpstreamCall)
    (apiKey : option string) (wait : GenerateVideoWait.WaitOutcome)
    (fetch : GenerateVideo.FetchOutcome) (f : GenerateVideo.Form) (ty : string) :
  GenerateVideo.bodyUsed rq = false → GenerateVideo.form rq = inl f →
  GenerateVideo.image f = GenerateVideo.FormFile ty →
  String.prefix "image/" ty = false →
  (∃ msg, GenerateVideo.POST vst rq env
          = (vst, mkResponse 400 (GenerateVideo.JsonError msg)))
  ∧ (∃ msg, GenerateVideoWait.POST calls rq apiKey wait fetch
            = (calls, mkResponse 400 (GenerateVideoWait.JsonError msg))).
Proof.
  intros Hused Hform Himg Hpre. split.
  - rewrite GenerateVideoFacts.POST_unfold.
    unfold GenerateVideo.POST_try, GenerateVideo.formData.
    rewrite Hused, Hform. simpl. rewrite Himg, Hpre. simpl.
    destruct (negb (GenerateVideo.entry_truthy (GenerateVideo.prompt f)));
      by eexists.
  - rewrite GenerateVideoFacts.Wait_POST_unfold.
    unfold GenerateVideoWait.POST_try, GenerateVideo.formData.
    rewrite Hused, Hform. simpl. rewrite Himg, Hpre. simpl.
    destruct (negb (GenerateVideo.entry_truthy (GenerateVideo.prompt f)));
      by eexists.
Qed.

Definition pdf_upload : GenerateVideo.Request :=
  GenerateVideo.mkRequest false
    (inl (GenerateVideo.mkForm (GenerateVideo.FormFile "application/pdf")
            (GenerateVideo.FormText "a cat dancing")))
    (ThrownError "Body is unusable").

Lemma non_image_upload_rejected_witness :
  (∃ msg, GenerateVideo.POST GenerateVideo.init pdf_upload (service "PENDING" None None)
          = (GenerateVideo.init, mkResponse 400 (GenerateVideo.JsonError msg)))
  ∧ (∃ msg, GenerateVideoWait.POST [] pdf_upload (Some "key_123")
              (GenerateVideoWait.WaitTask 3 "t1" (Some "https://cdn/v.mp4"))
              (GenerateVideo.FetchThrows ThrownOther)
            = ([], mkResponse 400 (GenerateVideoWait.JsonError msg))).
Proof.
  apply (non_image_upload_rejected GenerateVideo.init pdf_upload
           (service "PENDING" None None) [] (Some "key_123")
           (GenerateVideoWait.WaitTask 3 "t1" (Some "https://cdn/v.mp4"))
           (GenerateVideo.FetchThrows ThrownOther)
           (GenerateVideo.mkForm (GenerateVideo.FormFile "application/pdf")
              (GenerateVideo.FormText "a cat dancing"))
           "application/pdf"); reflexivity.
Defined.

End Claims.

(** * Further properties *)

(** ** The rate limiter *)

Module RateLimitMore.

Import RateLimit RateLimitFacts.

(** Every stored count is at least one. *)
Definition positive (s : gmap string RateLimitEntry) : Prop :=
  ∀ k e, s !! k = Some e → 1 ≤ count e.

Lemma check_positive rl key now :
  positive (store rl) → positive (store (check rl key now).1).
Proof.
  intros Hp k e'.
  destruct (decide (key = k)) as [->|Hne]; [|rewrite check_other by done; apply Hp].
  unfold check.
  destruct (store rl !! k) as [e|] eqn:He; simpl.
  - destruct (now >? resetTime e); simpl.
    + rewrite lookup_insert_eq. intros [= <-]. simpl. lia.
    + destruct (count e >=? limit rl); simpl.
      * rewrite He. intros [= <-]. by apply (Hp k).
      * rewrite lookup_insert_eq. intros [= <-]. simpl.
        pose proof (Hp k e He). lia.
  - rewrite lookup_insert_eq. intros [= <-]. simpl. lia.
Qed.

Lemma run_ops_positive ops : ∀ rl,
  positive (store rl) → positive (store (run_ops rl ops)).
Proof.
  induction ops as [|o ops IH]; intros rl Hp; [done|].
  unfold run_ops in *. simpl. apply IH.
  destruct o as [key now|now]; simpl; [by apply check_positive|].
  intros k e. rewrite map_lookup_filter_Some. intros [He _]. by apply (Hp k).
Qed.

(** What a check reports and what it stores. *)
Lemma check_reports rl key now :
  (success (check rl key now).2 = true →
     ∃ e, store (check rl key now).1 !! key = Some e
       ∧ remaining (check rl key now).2 = limit rl - count e)
  ∧ (success (check rl key now).2 = false → remaining (check rl key now).2 = 0).
Proof.
  unfold check.
  destruct (store rl !! key) as [e|] eqn:He; simpl.
  - destruct (now >? resetTime e); simpl.
    + split; [|done]. intros _. eexists. by rewrite lookup_insert_eq.
    + destruct (count e >=? limit rl); simpl; [done|].
      split; [|done]. intros _. eexists. by rewrite lookup_insert_eq.
  - split; [|done]. intros _. eexists. by rewrite lookup_insert_eq.
Qed.

(** X1.  A check made with one key leaves the entry of every other key,
    the limit and the window of the limiter as they were: the requests of
    one client never use up the quota of another. *)
Theorem check_isolated (rl : t) (key k : string) (now : Z) :
  key ≠ k →
  store (check rl key now).1 !! k = store rl !! k
  ∧ limit (check rl key now).1 = limit rl
  ∧ windowMs (check rl key now).1 = windowMs rl.
Proof.
  intros Hne. split; [by apply check_other|].
  split; [apply check_limit | apply check_windowMs].
Qed.

Lemma check_isolated_witness :
  store (check (run_ops rateLimit [OpCheck "198.51.100.2" 5]) "203.0.113.7" 9).1
    !! "198.51.100.2"
  = Some (mkEntry 1 60005).
Proof.
  rewrite (proj1 (check_isolated (run_ops rateLimit [OpCheck "198.51.100.2" 5])
                    "203.0.113.7" "198.51.100.2" 9 ltac:(discriminate))).
  vm_compute. reflexivity.
Defined.

(** X2.  In every state a limiter with a limit of at least one reaches,
    the [remaining] a check reports lies between 0 and [limit - 1]; it is
    the limit less the count stored for the key when the check succeeds,
    and 0 when it fails. *)
Theorem remaining_in_range (lim win : Z) (ops : list op) (key : string) (now : Z) :
  1 ≤ lim →
  let rl := run_ops (new lim win) ops in
  let r := (check rl key now).2 in
  0 ≤ remaining r ≤ lim - 1
  ∧ (success r = true →
       ∃ e, store (check rl key now).1 !! key = Some e
         ∧ remaining r = lim - count e)
  ∧ (success r = false → remaining r = 0).
Proof.
  intros Hlim rl r.
  assert (limit rl = lim) as Hl by apply run_ops_limit.
  pose proof (run_ops_bounded (ops ++ [OpCheck key now]) (new lim win) Hlim) as Hb.
  pose proof (run_ops_positive (ops ++ [OpCheck key now]) (new lim win)) as Hp.
  unfold run_ops in Hb, Hp. rewrite fold_left_app in Hb, Hp. simpl in Hb, Hp.
  fold (run_ops (new lim win) ops) in Hb, Hp. fold rl in Hb, Hp.
  destruct (check_reports rl key now) as [Hs Hf]. fold r in Hs, Hf.
  rewrite Hl in Hs.
  split; [|by split].
  destruct (success r).
  - destruct (Hs eq_refl) as (e & He & ->).
    pose proof (Hb ltac:(done) key e He). pose proof (Hp ltac:(done) key e He). lia.
  - rewrite (Hf eq_refl). lia.
Qed.

Lemma remaining_in_range_witness :
  0 ≤ remaining (check (run_ops rateLimit [OpCheck "a" 0; OpCheck "a" 1]) "a" 2).2 ≤ 9.
Proof.
  apply (remaining_in_range 10 60000 [OpCheck "a" 0; OpCheck "a" 1] "a" 2). lia.
Defined.

(** X3.  A [cleanup] is not seen by later checks: a check made when the
    clock reads no less than it did at the cleanup reports the same, and
    stores the same entry for its key, as it would have without the
    cleanup. *)
Theorem cleanup_transparent (rl : t) (now now' : Z) (key : string) :
  now ≤ now' →
  (check (cleanup rl now) key now').2 = (check rl key now').2
  ∧ store (check (cleanup rl now) key now').1 !! key
    = store (check rl key now').1 !! key.
Proof.
  intros Hle.
  assert (store (cleanup rl now) !! key
          = match store rl !! key with
            | Some e => if now >? resetTime e then None else Some e
            | None => None
            end) as Hlook.
  { unfold cleanup. simpl.
    destruct (store rl !! key) as [e|] eqn:He.
    - destruct (now >? resetTime e) eqn:Hgt.
      + apply map_lookup_filter_None. right. intros e' He' Hn. simpl in Hn.
        apply Hn. apply Z.gtb_lt in Hgt. assert (e' = e) as -> by congruence. lia.
      + apply map_lookup_filter_Some. split; [done|]. simpl.
        apply not_true_iff_false in Hgt. rewrite Z.gtb_lt in Hgt. lia.
    - apply map_lookup_filter_None. by left. }
  set (rl' := cleanup rl now) in *.
  assert (limit rl' = limit rl) as Hlim by done.
  assert (windowMs rl' = windowMs rl) as Hwin by done.
  destruct (store rl !! key) as [e|] eqn:He.
  - destruct (Z.lt_ge_cases (resetTime e) now') as [Hexp|Hin].
    + rewrite (check_opens rl key now') by (rewrite He; lia).
      rewrite (check_opens rl' key now')
        by (rewrite Hlook; destruct (now >? resetTime e); [done | lia]).
      rewrite Hlim, Hwin. simpl. by rewrite !lookup_insert_eq.
    + assert ((now >? resetTime e) = false) as Hgt.
      { apply not_true_iff_false. rewrite Z.gtb_lt. lia. }
      rewrite Hgt in Hlook.
      destruct (Z.lt_ge_cases (count e) (limit rl)) as [Hc|Hc].
      * rewrite (check_counts rl key now' e), (check_counts rl' key now' e)
          by (done || lia).
        rewrite Hlim. simpl. by rewrite !lookup_insert_eq.
      * rewrite (check_rejects rl key now' e), (check_rejects rl' key now' e)
          by (done || lia).
        cbn [fst snd]. by rewrite Hlook, He.
  - rewrite (check_opens rl key now') by (by rewrite He).
    rewrite (check_opens rl' key now') by (by rewrite Hlook).
    rewrite Hlim, Hwin. simpl. by rewrite !lookup_insert_eq.
Qed.

Lemma cleanup_transparent_witness :
  (check (cleanup (run_ops rateLimit [OpCheck "a" 0]) 70000) "a" 70001).2
  = mkResult true 9.
Proof.
  rewrite (proj1 (cleanup_transparent (run_ops rateLimit [OpCheck "a" 0])
                    70000 70001 "a" ltac:(lia))).
  vm_compute. reflexivity.
Defined.

End RateLimitMore.

(** ** The task route *)

Module GenerateMore.

Import Generate GenerateFacts.

(** [data.output?.[type === 'image' ? 'image' : 'video']] *)
Definition own_url (ty : TaskType) (output_image output_video : option string)
    : option string :=
  match ty with
  | image => output_image
  | video => output_video
  end.

(** The message [processTask] leaves in a failed task. *)
Definition failure_message (ty : TaskType) (o : FetchOutcome) : string :=
  match o with
  | FetchThrows e => message_of e
  | FetchNotOk statusText errorData =>
      "Runway API error: " +:+ statusText +:+ ". " +:+ errorData
  | FetchOk _ _ => "No " +:+ type_name ty +:+ " URL returned from Runway API"
  end.

(** Whether the answer of the service completes a task of type [ty]. *)
Definition completes (ty : TaskType) (o : FetchOutcome) : bool :=
  match o with
  | FetchOk oi ov => truthy_str (own_url ty oi ov)
  | _ => false
  end.

Definition url_of (ty : TaskType) (o : FetchOutcome) : string :=
  match o with
  | FetchOk oi ov => default "" (own_url ty oi ov)
  | _ => ""
  end.

Lemma settle_outcome st i s o :
  suspended st !! i = Some s →
  step st (EvSettled i o)
  = if completes (s_type s) o
    then settled st i s (complete (url_of (s_type s) o)) completed 3600000
    else settled st i s (fail (failure_message (s_type s) o)) failed 900000.
Proof.
  intros Hi. unfold step. rewrite Hi.
  assert (∀ e st0, processTask_catch (s_task s) (s_taskId s) e
                     (set_suspended (delete i (suspended st0)) st0)
                   = settled st0 i s (fail (message_of e)) failed 900000) as Hcatch.
  { intros e st0. unfold processTask_catch, settled, setTimeout, assign,
      assign_status, fail. simpl. by rewrite <- list_alter_compose. }
  destruct o as [e|statusText errorData|oi ov]; simpl.
  - apply Hcatch.
  - apply (Hcatch (ThrownError _)).
  - unfold own_url. destruct (s_type s); simpl;
      (destruct (truthy_str _);
       [unfold settled, setTimeout, assign, assign_status, complete; simpl;
        by rewrite <- !list_alter_compose
       |apply (Hcatch (ThrownError _))]).
Qed.

Lemma truthy_str_default o : truthy_str o = true → default "" o ≠ "".
Proof.
  destruct o as [u|]; simpl; [|done].
  intros Hu ->. done.
Qed.

(** The shape of the task objects: the progress goes with the status, a
    result is a non-empty string, and a suspended [processTask] holds the
    type of its task. *)
Definition shaped (st : State) : Prop :=
  (∀ r t, heap st !! r = Some t →
     progress t = (if decide (status t = completed) then 100 else 0)
     ∧ (∀ u, result t = Some u → u ≠ ""))
  ∧ (∀ s t, s ∈ suspended st → heap st !! s_task s = Some t → type t = s_type s).

Lemma shaped_admitted st rl ty env :
  inv st → shaped st → shaped (admitted st rl ty env).
Proof.
  intros Hinv [Hobj Hsusp]. unfold admitted.
  destruct (truthy_str (RUNWAY_API_KEY env)); split; simpl.
  - intros r t [[_ Ht]|[-> ->]]%lookup_snoc_Some; [by apply (Hobj r) | done].
  - intros s t [Hs| ->%list_elem_of_singleton]%elem_of_app; simpl.
    + destruct (inv_suspended st Hinv s Hs) as (t0 & Ht0 & _).
      rewrite (lookup_app_l_Some _ _ _ _ Ht0). intros [= <-]. by apply Hsusp.
    + rewrite lookup_snoc_eq. by intros [= <-].
  - intros r t [[_ Ht]|[-> ->]]%lookup_snoc_Some; [by apply (Hobj r) | done].
  - intros s t Hs. destruct (inv_suspended st Hinv s Hs) as (t0 & Ht0 & _).
    rewrite (lookup_app_l_Some _ _ _ _ Ht0). intros [= <-]. by apply Hsusp.
Qed.

Lemma shaped_settled st i s o :
  inv st → shaped st → suspended st !! i = Some s →
  shaped (step st (EvSettled i o)).
Proof.
  intros Hinv [Hobj Hsusp] Hi.
  assert (s ∈ suspended st) as Hs by (by eapply list_elem_of_lookup_2).
  assert (s_task s ∈ refs st) as Hin by (by apply list_elem_of_fmap_2).
  rewrite (settle_outcome st i s o Hi).
  assert (∀ f stt d,
            (∀ t, status t = processing → result t = None →
                  progress t = 0 →
                  progress (f t) = (if decide (status (f t) = completed) then 100 else 0)
                  ∧ (∀ u, result (f t) = Some u → u ≠ "")) →
            (∀ t, type (f t) = type t) →
            shaped (settled st i s f stt d)) as Hgen.
  { intros f stt d Hf Hty. split; simpl.
    - intros r t'. destruct (decide (s_task s = r)) as [<-|Hne].
      + rewrite list_lookup_alter_eq.
        destruct (heap st !! s_task s) as [t|] eqn:Ht; [|done].
        simpl. intros [= <-].
        destruct (inv_ref_processing st _ t Hinv Hin Ht) as (Hp & Hres & _).
        apply Hf; [done..|]. destruct (Hobj _ _ Ht) as [-> _]. by rewrite Hp.
      + rewrite list_lookup_alter_ne by done. apply Hobj.
    - intros s' t' Hs'%list_elem_of_delete_inv.
      destruct (decide (s_task s = s_task s')) as [Heq|Hne].
      + rewrite <- Heq, list_lookup_alter_eq.
        destruct (heap st !! s_task s) as [t|] eqn:Ht; [|done].
        simpl. intros [= <-]. rewrite Hty. apply Hsusp; [done | by rewrite <- Heq].
      + rewrite list_lookup_alter_ne by done. by apply Hsusp. }
  destruct (completes (s_type s) o) eqn:Hc; apply Hgen; try done.
  - intros t _ _ _. simpl. split; [done|]. intros u [= <-].
    destruct o as [| |oi ov]; simpl in *; try done. by apply truthy_str_default.
  - intros t Hp Hres Hprog. simpl. split; [done|]. by rewrite Hres.
Qed.

Lemma shaped_step st ev : inv st → shaped st → shaped (step st ev).
Proof.
  intros Hinv Hsh. destruct ev as [req env|taskId|i o|i].
  - simpl. destruct (POST_cases st req env) as [(resp & -> & _)|(ty & _ & _ & ->)]; simpl.
    + done.
    + by apply shaped_admitted.
  - done.
  - destruct (suspended st !! i) as [s|] eqn:Hi; [|by simpl; rewrite Hi].
    by apply (shaped_settled st i s).
  - destruct (timers st !! i) as [tm|] eqn:Hi; [|by simpl; rewrite Hi].
    by rewrite (timeout_cases st i tm Hi).
Qed.

Lemma shaped_reachable evs : shaped (run init evs).
Proof.
  assert (∀ st, inv st → shaped st → shaped (run st evs)) as H.
  { induction evs as [|ev evs IH]; intros st Hinv Hsh; [done|].
    simpl. apply IH; [by apply inv_step | by apply shaped_step]. }
  apply H; [apply inv_init|]. split; [intros r t Ht|intros s t Hs]; inversion Ht || inversion Hs.
Qed.

Lemma GET_task_inv st taskId t :
  GET st taskId = mkResponse 200 (JsonTask t) →
  ∃ k r, taskId = Some k ∧ tasks st !! k = Some r ∧ heap st !! r = Some t.
Proof.
  unfold GET, js_get. destruct (truthy_str taskId) eqn:Hid; simpl; [|done].
  destruct taskId as [k|]; [|done]. simpl.
  destruct (tasks st !! k) as [r|] eqn:Hk.
  - destruct (heap st !! r) as [t0|] eqn:Hr; [|done].
    intros [= <-]. by exists k, r.
  - destruct (bool_decide _); [|done]. by destruct (String.eqb k "__proto__").
Qed.

Lemma GET_stored st k r t :
  k ≠ "" → tasks st !! k = Some r → heap st !! r = Some t →
  GET st (Some k) = mkResponse 200 (JsonTask t).
Proof.
  intros Hk Hr Ht. unfold GET, js_get. simpl.
  assert (String.eqb k "" = false) as -> by (by apply String.eqb_neq).
  simpl. by rewrite Hr, Ht.
Qed.

(** X4.  In no state the module reaches has a task object the status
    pending: POST takes the task it creates to processing, or to failed,
    before it answers.  No status query is answered with a pending
    task. *)
Theorem never_pending (evs : list Event) :
  let st := run init evs in
  (∀ r t, heap st !! r = Some t → status t ≠ pending)
  ∧ (∀ taskId t, GET st taskId = mkResponse 200 (JsonTask t) → status t ≠ pending).
Proof.
  intros st. pose proof (inv_reachable evs) as Hinv. fold st in Hinv.
  assert (∀ r t, heap st !! r = Some t → status t ≠ pending) as H.
  { intros r t Ht Hp. pose proof (inv_heap st Hinv r t Ht) as Hok.
    unfold obj_ok in Hok. by rewrite Hp in Hok. }
  split; [done|].
  intros taskId t (k & r & _ & _ & Ht)%GET_task_inv. by apply (H r).
Qed.

(** X5.  In every state the module reaches, the progress of a task object
    is 100 if the task is completed and 0 otherwise, and the result of a
    task is a non-empty string. *)
Theorem progress_tracks_status (evs : list Event) (r : nat) (t : Task) :
  heap (run init evs) !! r = Some t →
  (progress t = 100 ∧ status t = completed
   ∨ progress t = 0 ∧ status t ≠ completed)
  ∧ (∀ u, result t = Some u → u ≠ "").
Proof.
  intros Ht. destruct (shaped_reachable evs) as [Hobj _].
  destruct (Hobj r t Ht) as [Hp Hu]. split; [|done].
  destruct (decide (status t = completed)); auto.
Qed.

Lemma progress_tracks_status_witness :
  (progress <$> heap (run init Claims.one_completed) !! 0%nat) = Some 100.
Proof.
  destruct (heap (run init Claims.one_completed) !! 0%nat) as [t|] eqn:Ht;
    [|by vm_compute in Ht].
  destruct (proj1 (progress_tracks_status Claims.one_completed 0%nat t Ht))
    as [[Hp _]|[_ Hs]]; [simpl; by rewrite Hp|].
  exfalso. apply Hs. vm_compute in Ht. by injection Ht as <-.
Defined.

(** X6.  How a suspended [processTask] ends, in every state the module
    reaches.  Its task is processing.  It becomes completed, with progress
    100 and the URL as result, exactly when the service answers ok with a
    non-empty URL under the key of the type of the task ([output.image] for
    an image, [output.video] for a video); otherwise it becomes failed, and
    its error is the message of the exception, or the status text and body
    of an answer that is not ok, or the notice that no URL of its type was
    returned.  Id, type and creation time stay. *)
Theorem processTask_outcome (evs : list Event) (i : nat) (s : Suspended)
    (o : FetchOutcome) :
  let st := run init evs in
  suspended st !! i = Some s →
  ∃ t, heap st !! s_task s = Some t ∧ status t = processing
    ∧ heap (step st (EvSettled i o)) !! s_task s
      = Some (if completes (type t) o
              then mkTask (id t) (type t) completed 100
                     (Some (url_of (type t) o)) None (createdAt t)
              else mkTask (id t) (type t) failed 0 None
                     (Some (failure_message (type t) o)) (createdAt t)).
Proof.
  intros st Hi. pose proof (inv_reachable evs) as Hinv. fold st in Hinv.
  destruct (shaped_reachable evs) as [Hobj Hsusp]. fold st in Hobj, Hsusp.
  assert (s ∈ suspended st) as Hs by (by eapply list_elem_of_lookup_2).
  assert (s_task s ∈ refs st) as Hin by (by apply list_elem_of_fmap_2).
  destruct (inv_suspended st Hinv s Hs) as (t & Ht & _).
  destruct (inv_ref_processing st _ t Hinv Hin Ht) as (Hp & Hres & Herr & _).
  destruct (Hobj _ _ Ht) as [Hprog _]. rewrite Hp in Hprog. simpl in Hprog.
  exists t. split; [done|]. split; [done|].
  pose proof (Hsusp s t Hs Ht) as Hty.
  rewrite (settle_outcome st i s o Hi), Hty.
  destruct t as [tid tty tst tpr tre ter tcr]. simpl in *. subst.
  destruct (completes (s_type s) o); simpl; by rewrite list_lookup_alter_eq, Ht.
Qed.

Lemma processTask_outcome_witness :
  heap (step (run init Claims.one_processing)
          (EvSettled 0 (FetchOk (Some "https://cdn/i.png") None))) !! 0%nat
  = Some (mkTask "0b9f5a3e-7e0c-4c55-9d2b-6d1f0f3a2c11" video failed 0 None
            (Some "No video URL returned from Runway API") 1000).
Proof.
  destruct (processTask_outcome Claims.one_processing 0
              (mkSuspended 0 "0b9f5a3e-7e0c-4c55-9d2b-6d1f0f3a2c11" video)
              (FetchOk (Some "https://cdn/i.png") None) eq_refl)
    as (t & Ht & _ & Hres).
  vm_compute in Ht. injection Ht as <-. exact Hres.
Defined.

(** X7.  A POST that is admitted stores the task under the id it returns:
    a status query with that id, made right after, is answered with the
    new task, of the type asked for and with progress 0, processing when
    the API key is set and failed for want of it otherwise. *)
Theorem POST_then_GET (st : State) (req : PostRequest) (env : PostEnv)
    (ty : TaskType) :
  passes st req env ty →
  Z.of_nat (length (activeTasks st)) < MAX_CONCURRENT_TASKS →
  randomUUID env ≠ "" →
  (POST st req env).2 = mkResponse 200 (JsonTaskId (randomUUID env))
  ∧ GET (POST st req env).1 (Some (randomUUID env))
    = mkResponse 200
        (JsonTask
           (if truthy_str (RUNWAY_API_KEY env)
            then mkTask (randomUUID env) ty processing 0 None None (date env)
            else mkTask (randomUUID env) ty failed 0 None
                   (Some "RUNWAY_API_KEY is not configured") (date env))).
Proof.
  intros Hpass Hlt Hid.
  destruct (POST_cases st req env) as [(resp & _ & _ & Hp)|(ty' & Hp & _ & ->)].
  - destruct Hp as [_ Hfull]; [by exists ty | lia].
  - rewrite (Claims.passes_fun _ _ _ _ _ Hpass Hp). simpl. split; [done|].
    apply (GET_stored _ _ (length (heap st))); [done|..];
      unfold admitted; destruct (truthy_str (RUNWAY_API_KEY env)); simpl;
      solve [apply lookup_insert_eq | apply lookup_snoc_eq].
Qed.

Lemma POST_then_GET_witness :
  GET (POST init (Claims.video_request "203.0.113.7")
         (Claims.at_time 1000 "0b9f5a3e-0001")).1 (Some "0b9f5a3e-0001")
  = mkResponse 200
      (JsonTask (mkTask "0b9f5a3e-0001" video processing 0 None None 1000)).
Proof.
  apply (proj2 (POST_then_GET init (Claims.video_request "203.0.113.7")
                  (Claims.at_time 1000 "0b9f5a3e-0001") video
                  ltac:(split; [reflexivity|]; eexists _, _; repeat split; reflexivity)
                  ltac:(vm_compute; reflexivity) ltac:(discriminate))).
Defined.

(** X8.  When the cleanup timer of a task goes off, the task is gone: a
    status query with its id, made right after, is answered 404. *)
Theorem expired_not_found (st : State) (i : nat) (tm : Timer) :
  timers st !! i = Some tm →
  timer_taskId tm ≠ "" →
  timer_taskId tm ∉ Object_prototype_keys →
  GET (step st (EvTimeout i)) (Some (timer_taskId tm))
  = mkResponse 404 (JsonError "Task not found").
Proof.
  intros Hi Hid Hproto. rewrite (timeout_cases st i tm Hi).
  unfold GET, js_get. simpl.
  assert (String.eqb (timer_taskId tm) "" = false) as -> by (by apply String.eqb_neq).
  simpl. rewrite lookup_delete_eq. by rewrite bool_decide_eq_false_2.
Qed.

Lemma expired_not_found_witness :
  GET (step (run init Claims.one_completed) (EvTimeout 0))
    (Some "0b9f5a3e-7e0c-4c55-9d2b-6d1f0f3a2c11")
  = mkResponse 404 (JsonError "Task not found").
Proof.
  apply (expired_not_found (run init Claims.one_completed) 0
           (mkTimer "0b9f5a3e-7e0c-4c55-9d2b-6d1f0f3a2c11" 3600000)).
  - vm_compute. reflexivity.
  - discriminate.
  - apply (bool_decide_unpack _). vm_compute. exact I.
Defined.

(** X9.  From submission to result.  When a POST is admitted with the API
    key set, and the service then answers ok with a non-empty URL for the
    type of the task, a status query with the id the POST returned is
    answered with the task completed, at progress 100, with that URL as its
    result and no error. *)
Theorem submit_complete_query (st : State) (req : PostRequest) (env : PostEnv)
    (ty : TaskType) (output_image output_video : option string) :
  passes st req env ty →
  Z.of_nat (length (activeTasks st)) < MAX_CONCURRENT_TASKS →
  truthy_str (RUNWAY_API_KEY env) = true →
  randomUUID env ≠ "" →
  truthy_str (own_url ty output_image output_video) = true →
  GET (run st [EvPOST req env;
               EvSettled (length (suspended st))
                 (FetchOk output_image output_video)])
    (Some (randomUUID env))
  = mkResponse 200
      (JsonTask (mkTask (randomUUID env) ty completed 100
                   (Some (default "" (own_url ty output_image output_video)))
                   None (date env))).
Proof.
  intros Hpass Hlt Hkey Hid Hurl. unfold run. cbn [fold_left].
  change (step st (EvPOST req env)) with ((POST st req env).1).
  destruct (POST_cases st req env) as [(resp & _ & _ & Hp)|(ty' & Hp & _ & Heq)].
  { destruct Hp as [_ Hfull]; [by exists ty | lia]. }
  rewrite Heq, <- (Claims.passes_fun _ _ _ _ _ Hpass Hp). cbn [fst].
  set (rl := (RateLimit.check _ _ _).1).
  set (s := mkSuspended (length (heap st)) (randomUUID env) ty).
  assert (suspended (admitted st rl ty env) !! length (suspended st) = Some s) as Hi.
  { unfold admitted. rewrite Hkey. simpl. apply lookup_snoc_eq. }
  rewrite (settle_outcome _ _ s _ Hi).
  assert (completes (s_type s) (FetchOk output_image output_video) = true) as ->
    by done.
  apply (GET_stored _ _ (length (heap st))); [done|..];
    unfold admitted; rewrite Hkey; simpl.
  - apply lookup_insert_eq.
  - rewrite alter_snoc. apply lookup_snoc_eq.
Qed.

Lemma submit_complete_query_witness :
  GET (run init [EvPOST (Claims.video_request "203.0.113.7")
                   (Claims.at_time 1000 "0b9f5a3e-0001");
                 EvSettled 0 (FetchOk None (Some "https://cdn/v.mp4"))])
    (Some "0b9f5a3e-0001")
  = mkResponse 200
      (JsonTask (mkTask "0b9f5a3e-0001" video completed 100
                   (Some "https://cdn/v.mp4") None 1000)).
Proof.
  apply (submit_complete_query init (Claims.video_request "203.0.113.7")
           (Claims.at_time 1000 "0b9f5a3e-0001") video None
           (Some "https://cdn/v.mp4")).
  - split; [reflexivity|]. eexists _, _. repeat split; reflexivity.
  - vm_compute. reflexivity.
  - reflexivity.
  - discriminate.
  - reflexivity.
Defined.

Definition too_many_requests : Response Json :=
  mkResponse 429 (JsonError "Too many requests. Please try again later.").

(** X10.  Every POST counts against the rate limit of its client, whatever
    becomes of it: the limiter is left as the check of the client's key
    leaves it.  The request is answered with the rate-limit error exactly
    when that check fails, and then nothing else has changed. *)
Theorem every_POST_is_counted (st : State) (req : PostRequest) (env : PostEnv) :
  let chk := RateLimit.check (limiter st) (ip_of req) (now env) in
  limiter (POST st req env).1 = chk.1
  ∧ ((POST st req env).2 = too_many_requests ↔ RateLimit.success chk.2 = false)
  ∧ (RateLimit.success chk.2 = false → (POST st req env).1 = set_limiter chk.1 st).
Proof.
  intros chk. split; [|split].
  - destruct (POST_cases st req env) as [(resp & -> & _)|(ty & _ & _ & ->)]; [done|].
    unfold admitted. by destruct (truthy_str _).
  - unfold POST. fold (ip_of req). fold chk.
    destruct chk as [rl res]. simpl.
    destruct (RateLimit.success res); simpl; [|done].
    split; [|done].
    destruct (body req) as [|type prompt]; [done|].
    destruct (negb (truthy type) || negb (truthy prompt)); [done|].
    destruct (task_type_of type); [|done].
    destruct (length_gt prompt MAX_PROMPT_LENGTH); [done|].
    by destruct (Z.of_nat (length (activeTasks (set_limiter rl st)))
                 >=? MAX_CONCURRENT_TASKS).
  - intros Hfail. unfold POST. fold (ip_of req). fold chk.
    destruct chk as [rl res]. simpl in *. by rewrite Hfail.
Qed.

(** X11.  In every state the module reaches, the task object stored under
    an id carries that id, and no task object is stored under two ids. *)
Theorem stored_under_own_id (evs : list Event) (k : string) (r : nat) :
  let st := run init evs in
  tasks st !! k = Some r →
  (∃ t, heap st !! r = Some t ∧ id t = k)
  ∧ (∀ k', tasks st !! k' = Some r → k' = k).
Proof.
  intros st Hk. pose proof (inv_reachable evs) as Hinv. fold st in Hinv.
  destruct (inv_tasks st Hinv k r Hk) as (t & Ht & Hid).
  split; [by exists t|].
  intros k' Hk'. destruct (inv_tasks st Hinv k' r Hk') as (t' & Ht' & Hid').
  congruence.
Qed.

Lemma stored_under_own_id_witness :
  ∃ t, heap (run init Claims.five_processing) !! 2%nat = Some t
    ∧ id t = "0b9f5a3e-0003".
Proof.
  apply (proj1 (stored_under_own_id Claims.five_processing "0b9f5a3e-0003" 2%nat
                  ltac:(vm_compute; reflexivity))).
Defined.

(** X12.  In every execution, a step never changes the id, the type or
    the creation time of a task object, and never lowers its progress. *)
Theorem fields_stable (evs : list Event) (ev : Event) (r : nat) (t t' : Task) :
  let st := run init evs in
  heap st !! r = Some t → heap (step st ev) !! r = Some t' →
  id t' = id t ∧ type t' = type t ∧ createdAt t' = createdAt t
  ∧ progress t ≤ progress t'.
Proof.
  intros st Ht Ht'. pose proof (inv_reachable evs) as Hinv. fold st in Hinv.
  destruct (shaped_reachable evs) as [Hobj _]. fold st in Hobj.
  destruct (Hobj r t Ht) as [Hprog _].
  destruct (step_object st ev r t t' Hinv Ht Ht')
    as [->|(Hp & [(u & -> & _)|(m & -> & _)])]; simpl.
  - repeat split; lia.
  - rewrite Hp in Hprog. simpl in Hprog. repeat split; lia.
  - repeat split; lia.
Qed.

Lemma fields_stable_witness :
  (status <$> heap (run init Claims.one_processing) !! 0%nat) = Some processing
  ∧ ∀ t', heap (step (run init Claims.one_processing)
                  (EvSettled 0 (FetchOk None (Some "https://cdn/v.mp4")))) !! 0%nat
          = Some t' →
          id t' = "0b9f5a3e-7e0c-4c55-9d2b-6d1f0f3a2c11" ∧ type t' = video
          ∧ createdAt t' = 1000 ∧ 0 ≤ progress t'.
Proof.
  split; [vm_compute; reflexivity|]. intros t' Ht'.
  apply (fields_stable Claims.one_processing
           (EvSettled 0 (FetchOk None (Some "https://cdn/v.mp4"))) 0%nat
           (mkTask "0b9f5a3e-7e0c-4c55-9d2b-6d1f0f3a2c11" video processing 0
              None None 1000) t' eq_refl Ht').
Defined.

End GenerateMore.

(** ** The upload route *)

Module GenerateVideoMore.

Import GenerateVideo GenerateVideoFacts.

(** What the [try] block of POST does, by its ways out. *)
Lemma POST_try_cases st rq env :
  (∃ msg, (POST_try st rq env).1.1 = st
      ∧ (POST_try st rq env).2 = inl (mkResponse 400 (JsonError msg)))
  ∨ (∃ e, (POST_try st rq env).1.1 = st ∧ (POST_try st rq env).2 = inr e)
  ∨ (∃ f ty,
       form rq = inl f ∧ image f = FormFile ty
       ∧ String.prefix "image/" ty = true
       ∧ entry_truthy (prompt f) = true
       ∧ truthy_str (RUNWAY_API_KEY env) = true
       ∧ ((∃ e, sdk_create env = SdkThrows e
             ∧ (POST_try st rq env).1.1 = call SdkImageToVideoCreate st
             ∧ (POST_try st rq env).2 = inr e)
          ∨ (∃ task_id, sdk_create env = SdkTask task_id
               ∧ (POST_try st rq env).1.1
                 = set_videoTasks
                     (<[task_id := mkVideoTask task_id "pending" 0 (date env) None None]>
                        (videoTasks st))
                     (call SdkImageToVideoCreate st)
               ∧ (POST_try st rq env).2
                 = inl (mkResponse 200 (JsonStarted task_id "pending" false))))).
Proof.
  unfold POST_try, formData.
  destruct (bodyUsed rq); simpl; [right; left; by eexists|].
  destruct (form rq) as [f|e] eqn:Hform; simpl; [|right; left; by eexists].
  destruct (entry_truthy (image f)) eqn:Himg; simpl; [|left; by eexists].
  destruct (entry_truthy (prompt f)) eqn:Hprompt; simpl; [|left; by eexists].
  destruct (image f) as [|txt|ty] eqn:Hfile; simpl;
    [done | right; left; by eexists |].
  destruct (String.prefix "image/" ty) eqn:Hpre; simpl; [|left; by eexists].
  destruct (truthy_str (RUNWAY_API_KEY env)) eqn:Hkey; simpl;
    [|right; left; by eexists].
  right. right. exists f, ty. do 5 (split; [done|]).
  destruct (sdk_create env) as [e|task_id]; simpl; [left | right]; by eexists.
Qed.

(** X13.  POST of the upload route never sends the direct request of its
    fallback, and never answers as the fallback would: the fallback starts
    by reading the body of the request again, which fails.  The handler
    calls the service at most once, through the SDK, and only for a request
    that brings a file of an image type and a prompt, with the API key
    set. *)
Theorem fallback_never_runs (st : State) (rq : Request) (env : Env) :
  (upstream_calls (POST st rq env).1 = upstream_calls st
   ∨ upstream_calls (POST st rq env).1 = upstream_calls st ++ [SdkImageToVideoCreate]
     ∧ ∃ f ty, form rq = inl f ∧ image f = FormFile ty
         ∧ String.prefix "image/" ty = true
         ∧ entry_truthy (prompt f) = true
         ∧ truthy_str (RUNWAY_API_KEY env) = true)
  ∧ (∀ taskId status, json (POST st rq env).2 ≠ JsonStarted taskId status true).
Proof.
  rewrite POST_unfold.
  destruct (POST_try_cases st rq env)
    as [(msg & Hst & Hres)|[(e & Hst & Hres)
        |(f & ty & Hf & Hi & Hp & Hpr & Hk & [(e & _ & Hst & Hres)|(tid & _ & Hst & Hres)])]];
    destruct (POST_try st rq env) as [[st' rq'] res]; simpl in *; subst; simpl.
  - split; [by left | done].
  - split; [by left | done].
  - split; [right; split; [done|]; by exists f, ty | done].
  - split; [right; split; [done|]; by exists f, ty | done].
Qed.

Definition upload_example : Request :=
  mkRequest false (inl (mkForm (FormFile "image/png") (FormText "a cat dancing")))
    (ThrownError "Body is unusable").

Definition answering (key : option string) (status : string)
    (output error : option string) : Env :=
  mkEnv key 1700000000000 (SdkTask "t1")
    (FetchOk (mkTaskData "t1" status output error)).

(** X14.  POST of the upload route answers 200, 400 or 500.  It stores an
    entry exactly when it answers 200: the entry is then stored under the
    id of the task the SDK created, pending, at progress 0, without video
    or error, and the answer carries that id; with any other answer the
    store is as it was. *)
Theorem POST_stores_on_success (st : State) (rq : Request) (env : Env) :
  (http_status (POST st rq env).2 = 200
   ∨ http_status (POST st rq env).2 = 400
   ∨ http_status (POST st rq env).2 = 500)
  ∧ (http_status (POST st rq env).2 = 200 →
       ∃ task_id, sdk_create env = SdkTask task_id
         ∧ (POST st rq env).2 = mkResponse 200 (JsonStarted task_id "pending" false)
         ∧ videoTasks (POST st rq env).1
           = <[task_id := mkVideoTask task_id "pending" 0 (date env) None None]>
               (videoTasks st))
  ∧ (http_status (POST st rq env).2 ≠ 200 →
       videoTasks (POST st rq env).1 = videoTasks st).
Proof.
  rewrite POST_unfold.
  destruct (POST_try_cases st rq env)
    as [(msg & Hst & Hres)|[(e & Hst & Hres)
        |(f & ty & _ & _ & _ & _ & _ & [(e & _ & Hst & Hres)|(tid & Hsdk & Hst & Hres)])]];
    destruct (POST_try st rq env) as [[st' rq'] res]; simpl in *; subst; simpl.
  - split; [by right; left|]. by split.
  - split; [by do 2 right|]. by split.
  - split; [by do 2 right|]. by split.
  - split; [by left|]. split; [|done]. intros _. by exists tid.
Qed.

(** X15.  GET of the upload route neither adds an entry to the store nor
    removes one, and leaves every entry but the one of the queried id as it
    is; of that one it keeps the id and the creation time.  With an id that
    is not in the store, the store stays as it is. *)
Theorem GET_touches_one_entry (st : State) (taskId : option string) (env : Env) :
  let st' := (GET st taskId env).1 in
  dom (videoTasks st') = dom (videoTasks st)
  ∧ (∀ k, taskId ≠ Some k → videoTasks st' !! k = videoTasks st !! k)
  ∧ (∀ k t, taskId = Some k → videoTasks st !! k = Some t →
       ∃ t', videoTasks st' !! k = Some t'
         ∧ id t' = id t ∧ createdAt t' = createdAt t)
  ∧ (∀ k, taskId = Some k → videoTasks st !! k = None →
       videoTasks st' = videoTasks st).
Proof.
  assert (∀ k data (m : gmap string VideoTask),
            dom (update_local k data m) = dom m
            ∧ (∀ k', k ≠ k' → update_local k data m !! k' = m !! k')
            ∧ (∀ t, m !! k = Some t →
                 ∃ t', update_local k data m !! k = Some t'
                   ∧ id t' = id t ∧ createdAt t' = createdAt t)
            ∧ (m !! k = None → update_local k data m = m)) as Hupd.
  { intros k data m. unfold update_local.
    destruct (m !! k) as [t|] eqn:Hk.
    - split; [by apply dom_insert_lookup_L|].
      split; [intros k' Hne; by rewrite lookup_insert_ne|].
      split; [|done]. intros t0 [= <-]. rewrite lookup_insert_eq.
      eexists. split; [done|].
      destruct (String.eqb (data_status data) "SUCCEEDED" && truthy_str (data_output data));
        destruct (String.eqb (data_status data) "FAILED" && truthy_str (data_error data));
        done.
    - split; [done|]. split; [done|]. by split. }
  intros st'. subst st'. unfold GET.
  destruct (truthy_str taskId) eqn:Hid; simpl;
    [|split; [done|]; split; [done|]; split; [by eauto|done]].
  destruct (truthy_str (RUNWAY_API_KEY env)); simpl;
    [|split; [done|]; split; [done|]; split; [by eauto|done]].
  destruct (fetch env) as [e|status errorText|data]; simpl;
    [split; [done|]; split; [done|]; split; [by eauto|done]..|].
  destruct taskId as [k0|]; [|done]. simpl.
  destruct (Hupd k0 data (videoTasks st)) as (Hdom & Hother & Hsame & Hnone).
  split; [done|]. split; [intros k Hne; apply Hother; congruence|].
  split; [intros k t [= <-]; apply Hsame | intros k [= <-]; apply Hnone].
Qed.

(** X16.  What GET of the upload route answers agrees with what it leaves
    in the store.  When it answers 200 for an id that is in the store, the
    entry has the progress of the answer, the status of the answer is the
    status of the entry in lower case, and a non-empty video URL or error
    in the answer is the one of the entry. *)
Theorem GET_answer_matches_store (st : State) (k : string) (env : Env)
    (t : VideoTask) (status : string) (p : Z) (v e : option string) :
  videoTasks st !! k = Some t →
  (GET st (Some k) env).2 = mkResponse 200 (JsonStatus k status p v e) →
  ∃ t', videoTasks (GET st (Some k) env).1 !! k = Some t'
    ∧ progress t' = p
    ∧ toLowerCase (GenerateVideo.status t') = status
    ∧ (truthy_str v = true → videoUrl t' = v)
    ∧ (truthy_str e = true → error t' = e).
Proof.
  intros Ht. unfold GET.
  destruct (truthy_str (Some k)) eqn:Hid; simpl negb; cbn [negb]; [|done].
  destruct (truthy_str (RUNWAY_API_KEY env)); cbn [negb]; [|done].
  destruct (fetch env) as [e0|s0 e0|data]; [done..|].
  change (default "" (Some k)) with k.
  cbn [fst snd]. intros [= <- <- <- <-].
  unfold update_local. cbn [videoTasks set_videoTasks call]. rewrite Ht.
  rewrite lookup_insert_eq. eexists. split; [done|].
  destruct (String.eqb (data_status data) "SUCCEEDED") eqn:Hs;
    destruct (String.eqb (data_status data) "FAILED") eqn:Hf;
    destruct (truthy_str (data_output data)) eqn:Ho;
    destruct (truthy_str (data_error data)) eqn:He; simpl;
    repeat split; try done; try congruence.
Qed.

Lemma GET_answer_matches_store_witness :
  ∃ t', videoTasks
          (GET (POST init upload_example (answering (Some "key_123") "PENDING" None None)).1
             (Some "t1")
             (answering (Some "key_123") "SUCCEEDED" (Some "https://cdn/v.mp4") None)).1
          !! "t1" = Some t'
    ∧ progress t' = 100
    ∧ toLowerCase (GenerateVideo.status t') = "succeeded"
    ∧ (truthy_str (Some "https://cdn/v.mp4") = true
       → videoUrl t' = Some "https://cdn/v.mp4")
    ∧ (truthy_str None = true → error t' = None).
Proof.
  apply (GET_answer_matches_store
           (POST init upload_example (answering (Some "key_123") "PENDING" None None)).1
           "t1"
           (answering (Some "key_123") "SUCCEEDED" (Some "https://cdn/v.mp4") None)
           (mkVideoTask "t1" "pending" 0 1700000000000 None None));
    vm_compute; reflexivity.
Defined.

(** X17.  From upload to video.  After a POST of the upload route that
    brings an image file and a prompt, with the API key set, for which the
    SDK creates the task [task_id], a GET with that id to which the service
    reports SUCCEEDED with a non-empty output leaves the entry succeeded,
    at progress 100, with the output as its video URL, and answers with the
    same. *)
Theorem upload_then_poll (st : State) (rq : Request) (env env' : Env)
    (f : Form) (ty task_id u : string) (data : TaskData) :
  bodyUsed rq = false → form rq = inl f → image f = FormFile ty →
  String.prefix "image/" ty = true → entry_truthy (prompt f) = true →
  truthy_str (RUNWAY_API_KEY env) = true →
  sdk_create env = SdkTask task_id → task_id ≠ "" →
  truthy_str (RUNWAY_API_KEY env') = true →
  fetch env' = FetchOk data →
  data_status data = "SUCCEEDED" → data_output data = Some u → u ≠ "" →
  let st1 := (POST st rq env).1 in
  videoTasks (GET st1 (Some task_id) env').1 !! task_id
  = Some (mkVideoTask task_id "SUCCEEDED" 100 (date env) (Some u) None)
  ∧ (GET st1 (Some task_id) env').2
    = mkResponse 200 (JsonStatus task_id "succeeded" 100 (Some u) None).
Proof.
  intros Hused Hform Himg Hpre Hprompt Hkey Hsdk Hid Hkey' Hfetch Hs Ho Hu st1.
  assert (videoTasks st1 !! task_id
          = Some (mkVideoTask task_id "pending" 0 (date env) None None)) as Hst1.
  { subst st1. rewrite POST_unfold. unfold POST_try, formData.
    rewrite Hused, Hform. simpl. rewrite Himg, Hprompt, Hpre, Hkey, Hsdk. simpl.
    apply lookup_insert_eq. }
  assert (truthy_str (Some task_id) = true) as Htid.
  { simpl. by apply negb_true_iff, String.eqb_neq. }
  assert (truthy_str (Some u) = true) as Htu.
  { simpl. by apply negb_true_iff, String.eqb_neq. }
  unfold GET. rewrite Htid, Hkey', Hfetch. simpl.
  unfold update_local. rewrite Hst1, Hs, Ho, Htu. simpl.
  by rewrite lookup_insert_eq.
Qed.

Lemma upload_then_poll_witness :
  (GET (POST init upload_example (answering (Some "key_123") "PENDING" None None)).1
     (Some "t1")
     (answering (Some "key_123") "SUCCEEDED" (Some "https://cdn/v.mp4") None)).2
  = mkResponse 200 (JsonStatus "t1" "succeeded" 100 (Some "https://cdn/v.mp4") None).
Proof.
  apply (proj2 (upload_then_poll init upload_example
                  (answering (Some "key_123") "PENDING" None None)
                  (answering (Some "key_123") "SUCCEEDED" (Some "https://cdn/v.mp4") None)
                  (mkForm (FormFile "image/png") (FormText "a cat dancing"))
                  "image/png" "t1" "https://cdn/v.mp4"
                  (mkTaskData "t1" "SUCCEEDED" (Some "https://cdn/v.mp4") None)
                  eq_refl eq_refl eq_refl eq_refl eq_refl eq_refl eq_refl
                  ltac:(discriminate) eq_refl eq_refl eq_refl eq_refl
                  ltac:(discriminate))).
Defined.

(** X18.  The handler that waits for the video answers 200, 400 or 500,
    and 200 only with the id of the finished task and its first output,
    which is then a non-empty URL.  It reaches the service through the SDK
    only: it sends nothing, or the creation of one task followed by the
    retrievals with which the SDK waits for it.  It never sends the direct
    request of its fallback and never answers as the fallback would. *)
Theorem Wait_POST_answers (calls : list UpstreamCall) (rq : Request)
    (apiKey : option string) (wait : GenerateVideoWait.WaitOutcome)
    (fetch : FetchOutcome) :
  let r := GenerateVideoWait.POST calls rq apiKey wait fetch in
  (http_status r.2 = 200 ∨ http_status r.2 = 400 ∨ http_status r.2 = 500)
  ∧ (http_status r.2 = 200 →
       ∃ n task_id u, wait = GenerateVideoWait.WaitTask n task_id (Some u) ∧ u ≠ ""
         ∧ r = (calls ++ SdkImageToVideoCreate :: replicate n SdkTasksRetrieve,
                mkResponse 200 (GenerateVideoWait.JsonVideo task_id u)))
  ∧ (r.1 = calls
     ∨ ∃ n, r.1 = calls ++ SdkImageToVideoCreate :: replicate n SdkTasksRetrieve)
  ∧ (∀ task_id, json r.2 ≠ GenerateVideoWait.JsonFallback task_id).
Proof.
  intros r. subst r. rewrite Wait_POST_unfold.
  unfold GenerateVideoWait.POST_try, formData.
  destruct (bodyUsed rq); simpl; [repeat split; auto; done|].
  destruct (form rq) as [f|e0]; simpl; [|repeat split; auto; done].
  destruct (negb (entry_truthy (image f)) || negb (entry_truthy (prompt f))); simpl;
    [repeat split; auto; done|].
  destruct (image f) as [|txt|ty]; simpl; [repeat split; auto; done..|].
  destruct (negb (String.prefix "image/" ty)); simpl; [repeat split; auto; done|].
  destruct (negb (truthy_str apiKey)); simpl; [repeat split; auto; done|].
  destruct wait as [n e0|n task_id output0]; simpl.
  { split; [auto|]. split; [done|]. split; [right; by exists n | done]. }
  destruct (truthy_str output0) eqn:Hout; simpl.
  - destruct output0 as [u|]; [|done]. simpl in *.
    split; [auto|]. split; [|split; [right; by exists n | done]].
    intros _. exists n, task_id, u. split; [done|]. split; [|done].
    intros ->. done.
  - split; [auto|]. split; [done|]. split; [right; by exists n | done].
Qed.

End GenerateVideoMore.
